(** * Incremental export of [b_crm_timeline]: checkpoint, pagination, transfer

    A shallow embedding of [export.py].  The script reads the last exported
    identifier from [last_id.txt], pages through the table with
    [WHERE ID > last_id ORDER BY ID LIMIT BATCH_SIZE], writes the pages to a
    CSV file, sends the file over SCP and only then stores the new identifier.

    What is modelled as data:
    - the text of [last_id.txt] is a [string] whose characters stand for the
      code points U+0000..U+00FF; [None] is an absent file;
    - a row of the dictionary cursor is an ordered list of (column, value)
      pairs that contains the integer column [ID];
    - the CSV file is the list of records handed to the [csv] writer, in
      order; quoting and encoding belong to the [csv] module;
    - the data source and the SCP endpoint are oracles of the environment: a
      fixed table, the point at which the data source raises (if any), and
      whether the upload succeeds.  Local file operations succeed. *)

From Stdlib Require Import ZArith String Ascii List Bool Lia Arith.
From Stdlib Require Import Decimal DecimalString DecimalFacts DecimalPos DecimalN DecimalZ.
From Stdlib Require Import Sorting.Sorted.
Import ListNotations.

Local Open Scope Z_scope.

(* ================================================================== *)
(** ** Exceptions *)

Inductive Exn : Type :=
| FileNotFoundError   (* LAST_ID_FILE.read_text() on an absent file *)
| ValueError          (* int() on text that is not an integer literal *)
| DataSourceError     (* mysql.connector error: connect, execute or fetchall *)
| TransferError.      (* paramiko / scp error: connect or put *)

Inductive Result (A : Type) : Type :=
| Ok (a : A)
| Raise (e : Exn).
Arguments Ok {A} a.
Arguments Raise {A} e.

Definition bind {A B : Type} (m : Result A) (k : A -> Result B) : Result B :=
  match m with
  | Ok a => k a
  | Raise e => Raise e
  end.

(** [try: m except Exception: return d] *)
Definition try_except {A : Type} (m : Result A) (d : A) : A :=
  match m with
  | Ok a => a
  | Raise _ => d
  end.

(* ================================================================== *)
(** ** Python text primitives used by the checkpoint store *)

(** [str.isspace] on the code points below 256. *)
Definition is_space (c : ascii) : bool :=
  let n := nat_of_ascii c in
  (((9 <=? n) && (n <=? 13)) || ((28 <=? n) && (n <=? 32))
   || (n =? 133) || (n =? 160))%nat.

Fixpoint lstrip (s : string) : string :=
  match s with
  | EmptyString => EmptyString
  | String c r => if is_space c then lstrip r else s
  end.

Fixpoint rstrip (s : string) : string :=
  match s with
  | EmptyString => EmptyString
  | String c r =>
      match rstrip r with
      | EmptyString => if is_space c then EmptyString else String c EmptyString
      | r' => String c r'
      end
  end.

(** [s.strip()] *)
Definition strip (s : string) : string := rstrip (lstrip s).

Definition digit_of (c : ascii) : option Z :=
  let n := nat_of_ascii c in
  if ((48 <=? n) && (n <=? 57))%nat then Some (Z.of_nat (n - 48)) else None.

(** Digits of an integer literal: at least one digit, single underscores
    allowed between digits only.  [after_digit] tells whether the previous
    character was a digit. *)
Fixpoint parse_digits (acc : Z) (after_digit : bool) (s : string) : option Z :=
  match s with
  | EmptyString => if after_digit then Some acc else None
  | String c r =>
      if Ascii.eqb c "_"%char
      then (if after_digit then parse_digits acc false r else None)
      else match digit_of c with
           | Some d => parse_digits (10 * acc + d) true r
           | None => None
           end
  end.

Definition parse_signed (s : string) : option Z :=
  match s with
  | String "-"%char r => option_map Z.opp (parse_digits 0 false r)
  | String "+"%char r => parse_digits 0 false r
  | _ => parse_digits 0 false s
  end.

(** [int(s)] in base 10: surrounding whitespace is ignored. *)
Definition py_int (s : string) : Result Z :=
  match parse_signed (strip s) with
  | Some n => Ok n
  | None => Raise ValueError
  end.

(** [str(n)] for an integer. *)
Definition py_str (n : Z) : string := NilZero.string_of_int (Z.to_int n).

(* ================================================================== *)
(** ** Checkpoint store: [last_id.txt] *)

(** A file of the working directory: [None] when it does not exist. *)
Definition File : Type := option string.

(** [Path.read_text()] *)
Definition read_text (f : File) : Result string :=
  match f with
  | Some s => Ok s
  | None => Raise FileNotFoundError
  end.

(** [read_last_id]:
    try: return int(LAST_ID_FILE.read_text().strip())
    except Exception: return 0 *)
Definition read_last_id (f : File) : Z :=
  try_except (bind (read_text f) (fun s => py_int (strip s))) 0.

(** [Path.write_text(data)] is [open(mode='w')], one buffered [write] and
    [close]: the file is truncated in place, then the text is written. *)
Inductive FileOp : Type :=
| Truncate
| Append (data : string).

Definition apply_op (f : File) (op : FileOp) : File :=
  match op with
  | Truncate => Some EmptyString
  | Append data =>
      Some (match f with Some s => (s ++ data)%string | None => data end)
  end.

Definition run_ops (ops : list FileOp) (f : File) : File :=
  fold_left apply_op ops f.

Definition write_text_ops (data : string) : list FileOp :=
  [Truncate; Append data].

Definition write_text (data : string) (f : File) : File :=
  run_ops (write_text_ops data) f.

(** [write_last_id]: LAST_ID_FILE.write_text(str(last_id)) *)
Definition write_last_id_ops (last_id : Z) : list FileOp :=
  write_text_ops (py_str last_id).

Definition write_last_id (last_id : Z) (f : File) : File :=
  run_ops (write_last_id_ops last_id) f.

(** The contents of the file that a reader, or the next run after an
    interruption, can find while [ops] are being applied: the content
    after each prefix of the operations. *)
Definition observable (ops : list FileOp) (f : File) : list File :=
  map (fun k => run_ops (firstn k ops) f) (seq 0 (S (length ops))).

(* ================================================================== *)
(** ** Rows and the data source *)

Inductive Value : Type :=
| VNull
| VInt (z : Z)
| VStr (s : string).

(** A row of [cursor(dictionary=True)]: the columns in table order, the
    integer column [ID] among them. *)
Record Row : Type := mkRow {
  cols_before : list (string * Value);
  ID : Z;
  cols_after : list (string * Value)
}.

Definition items (r : Row) : list (string * Value) :=
  cols_before r ++ ("ID"%string, VInt (ID r)) :: cols_after r.

(** [row.keys()] *)
Definition keys (r : Row) : list string := map fst (items r).

(** [WHERE ID > lo] *)
Definition id_gt (lo : Z) (r : Row) : bool := lo <? ID r.

(** [ORDER BY ID] *)
Fixpoint insert_by_ID (r : Row) (l : list Row) : list Row :=
  match l with
  | [] => [r]
  | x :: t => if ID r <=? ID x then r :: l else x :: insert_by_ID r t
  end.

Fixpoint order_by_ID (l : list Row) : list Row :=
  match l with
  | [] => []
  | x :: t => insert_by_ID x (order_by_ID t)
  end.

(** [SELECT * FROM b_crm_timeline WHERE ID > lo ORDER BY ID LIMIT limit] *)
Definition select (t : list Row) (lo : Z) (limit : nat) : list Row :=
  firstn limit (order_by_ID (filter (id_gt lo) t)).

(** The data source of one run: a fixed table, whether [mysql.connect]
    succeeds, and the number of the query (counted from 0) at which
    [execute]/[fetchall] raises, if any.  A [conn.commit()] that raises
    after page [k] was written leaves the files as a failure of query
    [k + 1] does, so it has no failure point of its own. *)
Record DataSource : Type := mkDataSource {
  table : list Row;
  connect_ok : bool;
  query_fails_at : option nat
}.

(** [cur.execute(..., (lo, limit)); cur.fetchall()] as query number [k]. *)
Definition execute_fetchall (db : DataSource) (k : nat) (lo : Z) (limit : nat)
  : Result (list Row) :=
  match query_fails_at db with
  | Some j => if (j =? k)%nat then Raise DataSourceError
              else Ok (select (table db) lo limit)
  | None => Ok (select (table db) lo limit)
  end.

(* ================================================================== *)
(** ** The export loop *)

(** A record written through [csv.DictWriter]. *)
Inductive Line : Type :=
| Header (fieldnames : list string)   (* writer.writeheader() *)
| Data (row : Row).                   (* one row of writer.writerows(rows) *)

(** The local variables of [export] inside the [while True] loop, and the
    pages fetched so far with the lower bound each was asked with. *)
Record Loop : Type := mkLoop {
  last_id : Z;
  new_last_id : Z;
  total_exported : nat;
  writer : option (list string);     (* None, or the DictWriter's fieldnames *)
  csvfile : list Line;
  fetched : list (Z * list Row)
}.

Definition loop_init (start : Z) : Loop :=
  {| last_id := start; new_last_id := start; total_exported := 0%nat;
     writer := None; csvfile := []; fetched := [] |}.

(** The fetch of a page, with the lower bound it was asked with, is added to
    the record of the run; the variables of the loop are unchanged. *)
Definition note_fetch (st : Loop) (rows : list Row) : Loop :=
  {| last_id := last_id st; new_last_id := new_last_id st;
     total_exported := total_exported st;
     writer := writer st; csvfile := csvfile st;
     fetched := fetched st ++ [(last_id st, rows)] |}.

(** [while True: ...].  [None]: the loop is still running when the fuel is
    spent.  [Some (st, Ok tt)]: left through [break].  [Some (st, Raise e)]:
    left through an exception. *)
Fixpoint loop (fuel : nat) (db : DataSource) (batch : nat) (st : Loop)
  : option (Loop * Result unit) :=
  match fuel with
  | O => None
  | S fuel' =>
      match execute_fetchall db (length (fetched st)) (last_id st) batch with
      | Raise e => Some (st, Raise e)
      | Ok rows =>
          match rows with
          | [] =>
              (* if not rows: break *)
              Some (note_fetch st rows, Ok tt)
          | r0 :: _ =>
              (* if writer is None: DictWriter(fieldnames=rows[0].keys());
                 writeheader() *)
              let (w, out) :=
                match writer st with
                | None => (keys r0, csvfile st ++ [Header (keys r0)])
                | Some w => (w, csvfile st)
                end in
              (* last_id = rows[-1]["ID"] *)
              let lid := ID (last rows r0) in
              loop fuel' db batch
                {| last_id := lid; new_last_id := lid;
                   total_exported := (total_exported st + length rows)%nat;
                   writer := Some w;
                   (* writer.writerows(rows) *)
                   csvfile := out ++ map Data rows;
                   fetched := fetched st ++ [(last_id st, rows)] |}
          end
      end
  end.

(* ================================================================== *)
(** ** One run *)

(** The working directory: the checkpoint file and the CSV file of the run. *)
Record Files : Type := mkFiles {
  last_id_txt : File;
  csv : option (list Line)
}.

Record Env : Type := mkEnv {
  db : DataSource;
  BATCH_SIZE : nat;
  ts : string;          (* datetime.now().strftime("%Y%m%d_%H%M%S") *)
  scp_ok : bool         (* whether scp_client() and scp.put succeed *)
}.

Definition csv_name (e : Env) : string :=
  ("b_crm_timeline_" ++ ts e ++ ".csv")%string.

(** One call of the transfer: the file, what it held, and the outcome. *)
Record Upload : Type := mkUpload {
  upload_name : string;
  upload_content : list Line;
  delivered : bool
}.

Inductive Status : Type :=
| Returned              (* export() returned *)
| Raised (e : Exn)      (* export() raised *)
| Running.              (* the loop has not finished within the fuel *)

Record Run : Type := mkRun {
  status : Status;
  files : Files;
  pages : list (Z * list Row);   (* lower bound and page of every fetch *)
  rows_exported : nat;           (* total_exported *)
  uploads : list Upload;         (* transfers attempted *)
  saved : list Z                 (* arguments of write_last_id *)
}.

(** [export()] after the [with] block: the CSV file has been closed; [res]
    tells how the loop was left. *)
Definition after_loop (e : Env) (fs : Files) (st : Loop) (res : Result unit)
  : Run :=
  let fs1 := {| last_id_txt := last_id_txt fs; csv := Some (csvfile st) |} in
  match res with
  | Raise x =>
      (* the exception leaves export() *)
      {| status := Raised x; files := fs1;
         pages := fetched st; rows_exported := total_exported st;
         uploads := []; saved := [] |}
  | Ok _ =>
      if (total_exported st =? 0)%nat then
        (* if total_exported == 0: return *)
        {| status := Returned; files := fs1;
           pages := fetched st; rows_exported := total_exported st;
           uploads := []; saved := [] |}
      else
        (* with scp_client() as scp: scp.put(str(csv_path), ...) *)
        let up := {| upload_name := csv_name e;
                     upload_content := csvfile st;
                     delivered := scp_ok e |} in
        if scp_ok e then
          (* write_last_id(new_last_id) *)
          {| status := Returned;
             files := {| last_id_txt :=
                           write_last_id (new_last_id st) (last_id_txt fs);
                         csv := Some (csvfile st) |};
             pages := fetched st; rows_exported := total_exported st;
             uploads := [up]; saved := [new_last_id st] |}
        else
          {| status := Raised TransferError; files := fs1;
             pages := fetched st; rows_exported := total_exported st;
             uploads := [up]; saved := [] |}
  end.

Definition export_with (fuel : nat) (e : Env) (fs : Files) : Run :=
  (* last_id = read_last_id() *)
  let start := read_last_id (last_id_txt fs) in
  if negb (connect_ok (db e)) then
    (* mysql_connection() raises before the CSV file is opened *)
    {| status := Raised DataSourceError; files := fs; pages := [];
       rows_exported := 0; uploads := []; saved := [] |}
  else
    (* csv_path.open("w") creates the file, or empties it *)
    match loop fuel (db e) (BATCH_SIZE e) (loop_init start) with
    | None =>
        {| status := Running;
           files := {| last_id_txt := last_id_txt fs; csv := Some [] |};
           pages := []; rows_exported := 0; uploads := []; saved := [] |}
    | Some (st, res) => after_loop e fs st res
    end.

(** [export()]: the loop is given more steps than the table has rows. *)
Definition export (e : Env) (fs : Files) : Run :=
  export_with (S (length (table (db e)))) e fs.

(** [__main__]: exit status of the process, [None] while it is running. *)
Definition exit_code (r : Run) : option Z :=
  match status r with
  | Returned => Some 0
  | Raised _ => Some 1      (* except Exception: sys.exit(1) *)
  | Running => None
  end.

Definition main (e : Env) (fs : Files) : Files * option Z :=
  let r := export e fs in (files r, exit_code r).

(* ================================================================== *)
(** ** Vocabulary of the properties *)

(** The rows of the table that a run starting at [c] has to export. *)
Definition pending (t : list Row) (c : Z) : list Row :=
  order_by_ID (filter (id_gt c) t).

(** The table lists its rows by strictly increasing identifier. *)
Fixpoint increasing_from (lo : Z) (l : list Row) : bool :=
  match l with
  | [] => true
  | r :: t => (lo <? ID r) && increasing_from (ID r) t
  end.

Definition strictly_increasing (l : list Row) : bool :=
  match l with
  | [] => true
  | r :: t => increasing_from (ID r) t
  end.

(** The data rows of a CSV file, in file order. *)
Fixpoint data_rows (l : list Line) : list Row :=
  match l with
  | [] => []
  | Header _ :: t => data_rows t
  | Data r :: t => r :: data_rows t
  end.

Fixpoint count_headers (l : list Line) : nat :=
  match l with
  | [] => 0%nat
  | Header _ :: t => S (count_headers t)
  | Data _ :: t => count_headers t
  end.

(** All the rows fetched, page after page. *)
Definition all_rows (ps : list (Z * list Row)) : list Row :=
  concat (map snd ps).

(** Every page after the first was asked with the identifier of the last
    row of the page before it. *)
Fixpoint chained (ps : list (Z * list Row)) : Prop :=
  match ps with
  | (_, p) :: (((lo', _) :: _) as rest) =>
      (exists r, p <> [] /\ lo' = ID (last p r)) /\ chained rest
  | _ => True
  end.

Definition simple_row (i : Z) : Row :=
  {| cols_before := []; ID := i; cols_after := [("TYPE_ID"%string, VInt 1)] |}.

Definition rows_upto (n : nat) : list Row :=
  map (fun k => simple_row (Z.of_nat k)) (seq 1 n).

(** The same run with another page size. *)
Definition with_batch (e : Env) (b : nat) : Env :=
  {| db := db e; BATCH_SIZE := b; ts := ts e; scp_ok := scp_ok e |}.

(** An environment without failures. *)
Definition healthy (t : list Row) (b : nat) : Env :=
  {| db := {| table := t; connect_ok := true; query_fails_at := None |};
     BATCH_SIZE := b; ts := "20240101_000000"%string; scp_ok := true |}.

(** The data source raises at query [k]. *)
Definition failing_at (k : nat) (t : list Row) (b : nat) : Env :=
  {| db := {| table := t; connect_ok := true; query_fails_at := Some k |};
     BATCH_SIZE := b; ts := "20240101_000000"%string; scp_ok := true |}.

(** The SCP endpoint refuses the file. *)
Definition unreachable (t : list Row) (b : nat) : Env :=
  {| db := {| table := t; connect_ok := true; query_fails_at := None |};
     BATCH_SIZE := b; ts := "20240101_000000"%string; scp_ok := false |}.

Definition fresh : Files := {| last_id_txt := None; csv := None |}.

Definition resumed (text : string) : Files :=
  {| last_id_txt := Some text; csv := None |}.

(** A text made of whitespace only. *)
Fixpoint all_space (s : string) : Prop :=
  match s with
  | EmptyString => True
  | String c r => is_space c = true /\ all_space r
  end.

(** A text without whitespace characters. *)
Fixpoint no_space (s : string) : Prop :=
  match s with
  | EmptyString => True
  | String c r => is_space c = false /\ no_space r
  end.

(** The checkpoint file is replaced in one step: whoever looks at it while
    [write_last_id n] runs finds the old content or the new one. *)
Definition atomic_write (n : Z) (f : File) : Prop :=
  forall f', In f' (observable (write_last_id_ops n) f) ->
             f' = f \/ f' = Some (py_str n).

(** The lower bound of the query that follows page [p], asked with [lo]. *)
Definition page_end (lo : Z) (p : list Row) : Z :=
  match p with
  | [] => lo
  | r0 :: _ => ID (last p r0)
  end.

Fixpoint end_of (c : Z) (ps : list (Z * list Row)) : Z :=
  match ps with
  | [] => c
  | (_, p) :: rest => end_of (page_end c p) rest
  end.

(** The pages are those the loop fetches from table [t] starting at [c]:
    each is the answer to the query at the current lower bound, and nothing
    is fetched after an empty page. *)
Fixpoint pages_from (t : list Row) (b : nat) (c : Z)
    (ps : list (Z * list Row)) : Prop :=
  match ps with
  | [] => True
  | (lo, p) :: rest =>
      lo = c /\ p = select t c b /\ (p = [] -> rest = [])
      /\ pages_from t b (page_end c p) rest
  end.

Definition nonempty (x : Z * list Row) : Prop := snd x <> [].

(** The CSV file that holds [rows]: the header of the first row, then one
    record per row. *)
Definition artifact (rows : list Row) : list Line :=
  match rows with
  | [] => []
  | r0 :: _ => Header (keys r0) :: map Data rows
  end.

(** What the variables of the loop hold, in terms of the pages fetched. *)
Record Shape (t : list Row) (b : nat) (c : Z) (st : Loop) : Prop := mkShape {
  shape_pages : pages_from t b c (fetched st);
  shape_last : last_id st = end_of c (fetched st);
  shape_new : new_last_id st = last_id st;
  shape_total : total_exported st = length (all_rows (fetched st));
  shape_writer : writer st = match all_rows (fetched st) with
                             | [] => None
                             | r0 :: _ => Some (keys r0)
                             end;
  shape_csv : csvfile st = artifact (all_rows (fetched st))
}.

(** How the loop was left. *)
Definition Stop (d : DataSource) (st : Loop) (res : Result unit) : Prop :=
  match res with
  | Ok _ =>
      exists ps, fetched st = ps ++ [(last_id st, [])] /\ Forall nonempty ps
  | Raise x =>
      x = DataSourceError
      /\ query_fails_at d = Some (length (fetched st))
      /\ Forall nonempty (fetched st)
  end.

Definition lt_ID (r1 r2 : Row) : Prop := ID r1 < ID r2.
Definition le_ID (r1 r2 : Row) : Prop := ID r1 <= ID r2.

(* ================================================================== *)
(** ** Settings and the SSH connection *)

(** [os.environ] once [load_dotenv(override=True)] has run. *)
Definition Environ : Type := string -> option string.

(** [os.getenv(k)] *)
Definition getenv (env : Environ) (k : string) : option string := env k.

(** [os.getenv(k, d)] with a text default *)
Definition getenv_or (env : Environ) (k d : string) : string :=
  match getenv env k with
  | Some s => s
  | None => d
  end.

(** [int(os.getenv(k, d))] with an integer default: [int] of an integer is
    that integer, [int] of a text parses it. *)
Definition getenv_int (env : Environ) (k : string) (d : Z) : Result Z :=
  match getenv env k with
  | Some s => py_int s
  | None => Ok d
  end.

(** [x or None] for [x] a text or [None] *)
Definition or_none (x : option string) : option string :=
  match x with
  | Some EmptyString => None
  | _ => x
  end.

(** The truth value of [x] in [if x:] *)
Definition truthy (x : option string) : bool :=
  match x with
  | None => false
  | Some EmptyString => false
  | Some _ => true
  end.

Module Settings.

(** [MYSQL_CFG] *)
Record Mysql : Type := mkMysql {
  unix_socket : string;
  user : option string;
  password : option string;
  database : option string;
  charset : string
}.

(** [SCP_CFG] *)
Record Scp : Type := mkScp {
  hostname : option string;
  port : Z;
  username : option string;
  scp_password : option string;     (* SCP_CFG["password"] *)
  key_path : option string;
  remote_dir : string
}.

(** The module-level settings. *)
Record t : Type := mk {
  WORKDIR : string;
  BATCH_SIZE : Z;
  MYSQL_CFG : Mysql;
  SCP_CFG : Scp
}.

End Settings.

(** The assignments at the top of the script, in order; [int] may raise.
    [expanduser] stands for [Path.expanduser] and [os.path.expanduser]. *)
Definition load_settings (expanduser : string -> string) (env : Environ)
  : Result Settings.t :=
  let workdir := expanduser (getenv_or env "WORKDIR"%string "."%string) in
  bind (getenv_int env "BATCH_SIZE"%string 5000) (fun batch =>
  let mysql_cfg :=
    {| Settings.unix_socket := "/var/lib/mysql/mysql.sock"%string;
       Settings.user := getenv env "MYSQL_USER"%string;
       Settings.password := getenv env "MYSQL_PASS"%string;
       Settings.database := getenv env "MYSQL_DB"%string;
       Settings.charset := "utf8mb4"%string |} in
  bind (getenv_int env "SCP_PORT"%string 22) (fun scp_port =>
  Ok {| Settings.WORKDIR := workdir;
        Settings.BATCH_SIZE := batch;
        Settings.MYSQL_CFG := mysql_cfg;
        Settings.SCP_CFG :=
          {| Settings.hostname := getenv env "SCP_HOST"%string;
             Settings.port := scp_port;
             Settings.username := getenv env "SCP_USER"%string;
             Settings.scp_password := or_none (getenv env "SCP_PASS"%string);
             Settings.key_path := or_none (getenv env "SCP_KEY"%string);
             Settings.remote_dir := getenv_or env "SCP_REMOTE_DIR"%string "/tmp"%string |}
     |})).

(** The arguments of [ssh.connect] in [scp_client]. *)
Inductive SshConnect : Type :=
| WithKey (host : option string) (port : Z) (username : option string)
          (key_filename : string)
| WithPassword (host : option string) (port : Z) (username : option string)
               (password : option string).

(** [scp_client]: the branch on [SCP_CFG["key_path"]]. *)
Definition scp_client (expanduser : string -> string) (cfg : Settings.Scp)
  : SshConnect :=
  if truthy (Settings.key_path cfg) then
    WithKey (Settings.hostname cfg) (Settings.port cfg)
            (Settings.username cfg)
            (expanduser (match Settings.key_path cfg with
                         | Some k => k
                         | None => EmptyString
                         end))
  else
    WithPassword (Settings.hostname cfg) (Settings.port cfg)
                 (Settings.username cfg) (Settings.scp_password cfg).

(** The environments agree on every variable but those listed. *)
Definition agree_except (ks : list string) (env env' : Environ) : Prop :=
  forall k, ~ In k ks -> env k = env' k.

(** A small environment, for examples. *)
Definition environ_of (l : list (string * string)) : Environ :=
  fun k =>
    match find (fun kv => String.eqb (fst kv) k) l with
    | Some kv => Some (snd kv)
    | None => None
    end.

(* ================================================================== *)
(** * Checkpoint store *)

Section Text.

Lemma lstrip_head (s : string) :
  lstrip s = EmptyString \/
  exists c r, lstrip s = String c r /\ is_space c = false.
Proof.
  induction s as [|c r IH]; simpl; [now left|].
  destruct (is_space c) eqn:E; [exact IH|].
  right. now exists c, r.
Qed.

Lemma rstrip_rstrip (s : string) : rstrip (rstrip s) = rstrip s.
Proof.
  induction s as [|c r IH]; simpl; [reflexivity|].
  destruct (rstrip r) as [|c' r'] eqn:E.
  - destruct (is_space c) eqn:Ec; simpl; [reflexivity|].
    now rewrite Ec.
  - simpl in IH |- *.
    destruct (rstrip r') as [|c'' r''] eqn:E'.
    + destruct (is_space c') eqn:Ec'; [discriminate IH|].
      now rewrite IH.
    + now rewrite IH.
Qed.

Lemma lstrip_rstrip (c : ascii) (r : string) :
  is_space c = false ->
  lstrip (rstrip (String c r)) = rstrip (String c r).
Proof.
  intros Hc. simpl.
  destruct (rstrip r); rewrite ?Hc; simpl; now rewrite Hc.
Qed.

Lemma strip_strip (s : string) : strip (strip s) = strip s.
Proof.
  unfold strip.
  destruct (lstrip_head s) as [E | (c & r & E & Hc)]; rewrite E.
  - reflexivity.
  - rewrite (lstrip_rstrip c r Hc). apply rstrip_rstrip.
Qed.

Lemma lstrip_no_space (s : string) : no_space s -> lstrip s = s.
Proof.
  destruct s as [|c r]; simpl; [reflexivity|].
  now intros [-> _].
Qed.

Lemma rstrip_no_space (s : string) : no_space s -> rstrip s = s.
Proof.
  induction s as [|c r IH]; simpl; [reflexivity|].
  intros [Hc Hr]. rewrite (IH Hr), Hc.
  now destruct r.
Qed.

Lemma strip_no_space (s : string) : no_space s -> strip s = s.
Proof.
  intros H. unfold strip. rewrite (lstrip_no_space s H).
  now apply rstrip_no_space.
Qed.

Lemma no_space_app (s1 s2 : string) :
  no_space s1 -> no_space s2 -> no_space (s1 ++ s2).
Proof.
  induction s1 as [|c r IH]; simpl; [trivial|].
  intros [Hc Hr] H2. split; [exact Hc | now apply IH].
Qed.

Lemma lstrip_all_space_app (w s : string) :
  all_space w -> lstrip (w ++ s) = lstrip s.
Proof.
  induction w as [|c r IH]; simpl; [reflexivity|].
  intros [Hc Hr]. rewrite Hc. now apply IH.
Qed.

Lemma rstrip_all_space (w : string) : all_space w -> rstrip w = EmptyString.
Proof.
  induction w as [|c r IH]; simpl; [reflexivity|].
  intros [Hc Hr]. now rewrite (IH Hr), Hc.
Qed.

Lemma rstrip_app_all_space (s w : string) :
  all_space w -> rstrip (s ++ w) = rstrip s.
Proof.
  intros Hw. induction s as [|c r IH]; simpl.
  - now apply rstrip_all_space.
  - now rewrite IH.
Qed.

Lemma strip_padding (w1 s w2 : string) :
  all_space w1 -> all_space w2 -> no_space s ->
  strip (w1 ++ s ++ w2) = s.
Proof.
  intros H1 H2 Hs. unfold strip.
  rewrite (lstrip_all_space_app w1 (s ++ w2) H1).
  destruct s as [|c r].
  - simpl. clear Hs.
    assert (E : forall w, all_space w -> lstrip w = EmptyString).
    { induction w as [|c r IH]; simpl; [reflexivity|].
      intros [Hc Hr]. rewrite Hc. now apply IH. }
    now rewrite (E w2 H2).
  - destruct Hs as [Hc Hr].
    change (String c r ++ w2)%string with (String c (r ++ w2)).
    cbn [lstrip]. rewrite Hc.
    change (String c (r ++ w2)) with (String c r ++ w2)%string.
    rewrite (rstrip_app_all_space (String c r) w2 H2).
    apply rstrip_no_space. now split.
Qed.

End Text.

Section Decimal.

Ltac eval_digit :=
  cbn [parse_digits Ascii.eqb Bool.eqb];
  match goal with
  | |- context [digit_of ?c] =>
      let v := eval vm_compute in (digit_of c) in
      change (digit_of c) with v
  end;
  cbv iota beta.

Lemma parse_digits_acc (d : uint) (p : positive) (b : bool) :
  d <> Nil \/ b = true ->
  parse_digits (Z.pos p) b (NilEmpty.string_of_uint d)
  = Some (Z.pos (Pos.of_uint_acc d p)).
Proof.
  revert p b.
  induction d; intros p b Hb; cbn [NilEmpty.string_of_uint Pos.of_uint_acc];
    [ destruct Hb as [Hb | ->]; [congruence | reflexivity] | .. ];
    eval_digit;
    match goal with
    | |- parse_digits ?z true _ = Some (Z.pos (Pos.of_uint_acc _ ?q)) =>
        replace z with (Z.pos q) by lia
    end;
    apply IHd; now right.
Qed.

Lemma parse_digits_uint (d : uint) (b : bool) :
  d <> Nil \/ b = true ->
  parse_digits 0 b (NilEmpty.string_of_uint d) = Some (Z.of_N (Pos.of_uint d)).
Proof.
  revert b.
  induction d; intros b Hb; cbn [NilEmpty.string_of_uint Pos.of_uint];
    [ destruct Hb as [Hb | ->]; [congruence | reflexivity]
    | eval_digit; apply IHd; now right
    | .. ];
    eval_digit;
    match goal with
    | |- parse_digits ?z true _ = _ =>
        let v := eval vm_compute in z in change z with v
    end;
    rewrite parse_digits_acc by (now right); reflexivity.
Qed.

Lemma no_space_uint (d : uint) : no_space (NilEmpty.string_of_uint d).
Proof.
  induction d; cbn [NilEmpty.string_of_uint no_space]; auto.
Qed.

Lemma string_of_uint_nonnil (d : uint) :
  d <> Nil -> NilZero.string_of_uint d = NilEmpty.string_of_uint d.
Proof. destruct d; [congruence | reflexivity ..]. Qed.

Lemma no_space_py_str (n : Z) : no_space (py_str n).
Proof.
  unfold py_str.
  destruct n as [|p|p]; cbn [Z.to_int NilZero.string_of_int].
  - cbn. auto.
  - rewrite string_of_uint_nonnil by apply DecimalPos.Unsigned.to_uint_nonnil.
    apply no_space_uint.
  - rewrite string_of_uint_nonnil by apply DecimalPos.Unsigned.to_uint_nonnil.
    cbn [no_space]. split; [reflexivity | apply no_space_uint].
Qed.

Lemma parse_signed_py_str (n : Z) : parse_signed (py_str n) = Some n.
Proof.
  unfold py_str.
  destruct n as [|p|p]; cbn [Z.to_int NilZero.string_of_int].
  - reflexivity.
  - rewrite string_of_uint_nonnil by apply DecimalPos.Unsigned.to_uint_nonnil.
    assert (E : parse_digits 0 false (NilEmpty.string_of_uint (Pos.to_uint p))
                = Some (Z.pos p)).
    { rewrite parse_digits_uint by (left; apply DecimalPos.Unsigned.to_uint_nonnil).
      now rewrite DecimalPos.Unsigned.of_to. }
    revert E. unfold parse_signed.
    destruct (NilEmpty.string_of_uint (Pos.to_uint p)) as [|c r] eqn:Es;
      [trivial|].
    intros E.
    destruct (Ascii.eqb c "-"%char) eqn:E1.
    { apply Ascii.eqb_eq in E1. subst c. discriminate E. }
    destruct (Ascii.eqb c "+"%char) eqn:E2.
    { apply Ascii.eqb_eq in E2. subst c. discriminate E. }
    destruct c as [[] [] [] [] [] [] [] []]; try exact E; discriminate.
  - rewrite string_of_uint_nonnil by apply DecimalPos.Unsigned.to_uint_nonnil.
    cbn [parse_signed].
    rewrite parse_digits_uint by (left; apply DecimalPos.Unsigned.to_uint_nonnil).
    now rewrite DecimalPos.Unsigned.of_to.
Qed.

End Decimal.

(* ================================================================== *)
(** * The query *)

Section Query.

Lemma insert_by_ID_In (r x : Row) (l : list Row) :
  In x (insert_by_ID r l) <-> x = r \/ In x l.
Proof.
  induction l as [|y l IH]; simpl.
  - intuition congruence.
  - destruct (ID r <=? ID y); simpl; [intuition congruence|].
    rewrite IH. intuition congruence.
Qed.

Lemma order_by_ID_In (x : Row) (l : list Row) :
  In x (order_by_ID l) <-> In x l.
Proof.
  induction l as [|y l IH]; simpl; [tauto|].
  rewrite insert_by_ID_In, IH. intuition congruence.
Qed.

Lemma insert_by_ID_sorted (r : Row) (l : list Row) :
  StronglySorted le_ID l -> StronglySorted le_ID (insert_by_ID r l).
Proof.
  induction 1 as [|y l Hs IH Hy]; simpl.
  - constructor; constructor.
  - destruct (ID r <=? ID y) eqn:E.
    + apply Z.leb_le in E.
      constructor; [now constructor|].
      constructor; [exact E|].
      eapply Forall_impl; [|exact Hy].
      unfold le_ID. intros a Ha. lia.
    + apply Z.leb_gt in E.
      constructor; [exact IH|].
      apply Forall_forall. intros a Ha.
      apply insert_by_ID_In in Ha. destruct Ha as [-> | Ha].
      * unfold le_ID. lia.
      * rewrite Forall_forall in Hy. now apply Hy.
Qed.

Lemma order_by_ID_sorted (l : list Row) : StronglySorted le_ID (order_by_ID l).
Proof.
  induction l as [|y l IH]; simpl; [constructor|].
  now apply insert_by_ID_sorted.
Qed.

(** Sorting a list that is already in strictly increasing order changes
    nothing. *)
Lemma order_by_ID_id (l : list Row) :
  StronglySorted lt_ID l -> order_by_ID l = l.
Proof.
  induction 1 as [|y l Hs IH Hy]; simpl; [reflexivity|].
  rewrite IH. destruct l as [|z l]; [reflexivity|]. simpl.
  inversion Hy as [|? ? Hz _]; subst. unfold lt_ID in Hz.
  destruct (ID y <=? ID z) eqn:E; [reflexivity|].
  apply Z.leb_gt in E. lia.
Qed.

Lemma filter_sorted (R : Row -> Row -> Prop) (p : Row -> bool) (l : list Row) :
  StronglySorted R l -> StronglySorted R (filter p l).
Proof.
  induction 1 as [|y l Hs IH Hy]; simpl; [constructor|].
  destruct (p y); [|exact IH].
  constructor; [exact IH|].
  apply Forall_forall. intros a Ha. apply filter_In in Ha.
  rewrite Forall_forall in Hy. now apply Hy.
Qed.

Lemma firstn_sorted (R : Row -> Row -> Prop) (n : nat) (l : list Row) :
  StronglySorted R l -> StronglySorted R (firstn n l).
Proof.
  intros H. revert n.
  induction H as [|y l Hs IH Hy]; intros [|n]; simpl; try constructor.
  - apply IH.
  - apply Forall_forall. intros a Ha.
    rewrite Forall_forall in Hy. apply Hy.
    rewrite <- (firstn_skipn n l). apply in_or_app. now left.
Qed.

Lemma select_In (t : list Row) (lo : Z) (n : nat) (r : Row) :
  In r (select t lo n) -> In r t /\ lo < ID r.
Proof.
  unfold select. intros H.
  assert (H' : In r (order_by_ID (filter (id_gt lo) t))).
  { rewrite <- (firstn_skipn n (order_by_ID _)). apply in_or_app. now left. }
  apply order_by_ID_In, filter_In in H'. destruct H' as [Hin Hgt].
  split; [exact Hin|]. now apply Z.ltb_lt in Hgt.
Qed.

Lemma select_sorted (t : list Row) (lo : Z) (n : nat) :
  StronglySorted le_ID (select t lo n).
Proof. apply firstn_sorted, order_by_ID_sorted. Qed.

(** In a list sorted by identifier the last row has the highest one. *)
Lemma sorted_last_max (l : list Row) (d r : Row) :
  StronglySorted le_ID l -> In r l -> ID r <= ID (last l d).
Proof.
  induction 1 as [|y l Hs IH Hy]; [contradiction|].
  intros [-> | Hin].
  - destruct l as [|z l]; [simpl; lia|].
    rewrite Forall_forall in Hy.
    assert (Hl : In (last (z :: l) d) (z :: l)).
    { destruct (exists_last (l := z :: l)) as (l' & a & E); [discriminate|].
      rewrite E, last_last. apply in_or_app. right. now left. }
    specialize (Hy _ Hl). unfold le_ID in Hy.
    change (last (r :: z :: l) d) with (last (z :: l) d). exact Hy.
  - destruct l as [|z l]; [contradiction|].
    change (last (y :: z :: l) d) with (last (z :: l) d). now apply IH.
Qed.

Lemma last_In (l : list Row) (d : Row) : l <> [] -> In (last l d) l.
Proof.
  intros H. destruct (exists_last H) as (l' & a & ->).
  rewrite last_last. apply in_or_app. right. now left.
Qed.

Lemma page_end_spec (t : list Row) (lo : Z) (n : nat) :
  let p := select t lo n in
  lo <= page_end lo p /\
  Forall (fun r => lo < ID r /\ ID r <= page_end lo p) p /\
  (p <> [] -> lo < page_end lo p /\
              exists r, In r t /\ lo < ID r /\ ID r = page_end lo p).
Proof.
  intros p. subst p.
  destruct (select t lo n) as [|r0 p'] eqn:E.
  - simpl. split; [lia | split; [constructor | congruence]].
  - unfold page_end.
    assert (Hl : In (last (r0 :: p') r0) (select t lo n)).
    { rewrite E. apply last_In. discriminate. }
    pose proof (select_In _ _ _ _ Hl) as [Hin Hgt].
    split; [lia | split].
    + apply Forall_forall. intros r Hr. rewrite <- E in Hr.
      split; [now apply (select_In t lo n)|].
      rewrite <- E. apply sorted_last_max; [apply select_sorted | exact Hr].
    + intros _. split; [exact Hgt|].
      exists (last (r0 :: p') r0). auto.
Qed.

(** A narrower filter keeps fewer rows when it drops a row the wider keeps. *)
Lemma filter_length_lt (p q : Row -> bool) (l : list Row) (r : Row) :
  (forall x, p x = true -> q x = true) ->
  In r l -> q r = true -> p r = false ->
  (length (filter p l) < length (filter q l))%nat.
Proof.
  intros Hpq.
  assert (Hle : forall l', (length (filter p l') <= length (filter q l'))%nat).
  { induction l' as [|y l' IH]; simpl; [lia|].
    destruct (p y) eqn:Ep.
    - rewrite (Hpq _ Ep). simpl. lia.
    - destruct (q y); simpl; lia. }
  induction l as [|y l IH]; simpl; [contradiction|].
  intros [-> | Hin] Hq Hp.
  - rewrite Hq, Hp. simpl. specialize (Hle l). lia.
  - specialize (IH Hin Hq Hp).
    destruct (p y) eqn:Ep.
    + rewrite (Hpq _ Ep). simpl. lia.
    + destruct (q y); simpl; lia.
Qed.

Lemma pending_shrinks (t : list Row) (lo : Z) (n : nat) :
  select t lo n <> [] ->
  (length (filter (id_gt (page_end lo (select t lo n))) t)
   < length (filter (id_gt lo) t))%nat.
Proof.
  intros H.
  destruct (page_end_spec t lo n) as (_ & _ & H3).
  destruct (H3 H) as (Hlt & r & Hin & Hgt & Heq).
  apply filter_length_lt with (r := r); unfold id_gt.
  - intros x Hx. apply Z.ltb_lt in Hx. apply Z.ltb_lt. lia.
  - exact Hin.
  - apply Z.ltb_lt. lia.
  - apply Z.ltb_ge. lia.
Qed.

End Query.

(* ================================================================== *)
(** * The loop *)

Section LoopFacts.

Variable d : DataSource.
Variable b : nat.
Variable c : Z.

Let t := table d.

Lemma all_rows_app (ps : list (Z * list Row)) (lo : Z) (p : list Row) :
  all_rows (ps ++ [(lo, p)]) = all_rows ps ++ p.
Proof.
  unfold all_rows. rewrite map_app, concat_app. simpl.
  now rewrite List.app_nil_r.
Qed.

Lemma end_of_app (ps : list (Z * list Row)) (lo : Z) (p : list Row) (c0 : Z) :
  end_of c0 (ps ++ [(lo, p)]) = page_end (end_of c0 ps) p.
Proof.
  revert c0. induction ps as [|[l q] ps IH]; intros c0; simpl; [reflexivity|].
  apply IH.
Qed.

Lemma pages_from_app (ps : list (Z * list Row)) (c0 : Z) :
  pages_from t b c0 ps -> Forall nonempty ps ->
  pages_from t b c0 (ps ++ [(end_of c0 ps, select t (end_of c0 ps) b)]).
Proof.
  revert c0. induction ps as [|[l q] ps IH]; intros c0 Hp Hn; simpl.
  - tauto.
  - destruct Hp as (Hl & Hq & _ & Hrest).
    inversion Hn as [|? ? Hq0 Hn']; subst. unfold nonempty in Hq0. simpl in Hq0.
    repeat split; [now intros; exfalso; apply Hq0|].
    now apply IH.
Qed.

Lemma execute_fetchall_ok (k : nat) (lo : Z) (rows : list Row) :
  execute_fetchall d k lo b = Ok rows -> rows = select t lo b.
Proof.
  unfold execute_fetchall, t.
  destruct (query_fails_at d) as [j|]; [destruct (j =? k)%nat|]; congruence.
Qed.

Lemma execute_fetchall_raise (k : nat) (lo : Z) (e : Exn) :
  execute_fetchall d k lo b = Raise e ->
  e = DataSourceError /\ query_fails_at d = Some k.
Proof.
  unfold execute_fetchall.
  destruct (query_fails_at d) as [j|]; [|discriminate].
  destruct (j =? k)%nat eqn:E; [|discriminate].
  apply Nat.eqb_eq in E. subst j. intros H. split; congruence.
Qed.

Lemma Shape_init : Shape t b c (loop_init c).
Proof. constructor; simpl; auto. Qed.

Lemma Shape_note (st : Loop) :
  Shape t b c st -> Forall nonempty (fetched st) ->
  select t (last_id st) b = [] ->
  Shape t b c (note_fetch st []).
Proof.
  intros [Hp Hl Hn Ht Hw Hc] Hne E.
  constructor; simpl; rewrite ?all_rows_app, ?List.app_nil_r, ?end_of_app; auto.
  rewrite <- E, Hl. now apply pages_from_app.
Qed.

Lemma Shape_step (st : Loop) (r0 : Row) (rest : list Row)
    (w : list string) (out : list Line) :
  Shape t b c st -> Forall nonempty (fetched st) ->
  select t (last_id st) b = r0 :: rest ->
  match writer st with
  | None => (keys r0, csvfile st ++ [Header (keys r0)])
  | Some w' => (w', csvfile st)
  end = (w, out) ->
  Shape t b c
    {| last_id := ID (last (r0 :: rest) r0);
       new_last_id := ID (last (r0 :: rest) r0);
       total_exported := (total_exported st + length (r0 :: rest))%nat;
       writer := Some w;
       csvfile := out ++ map Data (r0 :: rest);
       fetched := fetched st ++ [(last_id st, r0 :: rest)] |}.
Proof.
  intros [Hp Hl Hn Ht Hw Hc] Hne E Ew.
  constructor; cbn [last_id new_last_id total_exported writer csvfile fetched];
    rewrite ?all_rows_app, ?end_of_app.
  - rewrite <- E, Hl. now apply pages_from_app.
  - now rewrite <- Hl.
  - reflexivity.
  - rewrite List.length_app, Ht. reflexivity.
  - rewrite Hw in Ew.
    destruct (all_rows (fetched st)) as [|a A]; simpl; congruence.
  - rewrite Hw, Hc in Ew.
    destruct (all_rows (fetched st)) as [|a A]; simpl in *.
    + injection Ew as <- <-. reflexivity.
    + injection Ew as <- <-. simpl. now rewrite map_app.
Qed.

Lemma nonempty_app (ps : list (Z * list Row)) (lo : Z) (p : list Row) :
  Forall nonempty ps -> p <> [] -> Forall nonempty (ps ++ [(lo, p)]).
Proof.
  intros H Hp. apply Forall_app. split; [exact H|].
  constructor; [exact Hp | constructor].
Qed.

(** What the loop leaves behind, however it is left. *)
Lemma loop_spec (fuel : nat) :
  forall (st st' : Loop) (res : Result unit),
    Shape t b c st -> Forall nonempty (fetched st) ->
    loop fuel d b st = Some (st', res) ->
    Shape t b c st' /\ Stop d st' res.
Proof.
  induction fuel as [|fuel IH]; intros st st' res Hs Hne; [discriminate|].
  cbn [loop].
  destruct (execute_fetchall d (length (fetched st)) (last_id st) b)
    as [rows|e] eqn:Eq.
  - apply execute_fetchall_ok in Eq.
    destruct rows as [|r0 rest].
    + intros H. injection H as <- <-. split.
      * now apply Shape_note.
      * simpl. exists (fetched st). auto.
    + destruct (match writer st with
                | None => (keys r0, csvfile st ++ [Header (keys r0)])
                | Some w => (w, csvfile st)
                end) as [w out] eqn:Ew.
      apply IH.
      * now apply Shape_step.
      * apply nonempty_app; [exact Hne | discriminate].
  - apply execute_fetchall_raise in Eq. destruct Eq as [-> Hq].
    intros H. injection H as <- <-. split; [exact Hs|].
    simpl. auto.
Qed.

(** The loop ends: each page that is not empty leaves fewer rows above the
    lower bound. *)
Lemma loop_total (fuel : nat) :
  forall st : Loop,
    (length (filter (id_gt (last_id st)) t) < fuel)%nat ->
    exists st' res, loop fuel d b st = Some (st', res).
Proof.
  induction fuel as [|fuel IH]; intros st Hlt; [lia|].
  cbn [loop].
  destruct (execute_fetchall d (length (fetched st)) (last_id st) b)
    as [rows|e] eqn:Eq; [|eauto].
  apply execute_fetchall_ok in Eq.
  destruct rows as [|r0 rest]; [eauto|].
  destruct (match writer st with
            | None => (keys r0, csvfile st ++ [Header (keys r0)])
            | Some w => (w, csvfile st)
            end) as [w out].
  apply IH. cbn [last_id].
  assert (Hne : select t (last_id st) b <> []) by (rewrite <- Eq; discriminate).
  pose proof (pending_shrinks t (last_id st) b Hne) as Hs.
  rewrite <- Eq in Hs. unfold page_end in Hs. fold t in Hs. lia.
Qed.

(** More fuel does not change the outcome of a loop that has ended. *)
Lemma loop_more_fuel (fuel : nat) :
  forall (st : Loop) (x : Loop * Result unit) (fuel' : nat),
    loop fuel d b st = Some x -> (fuel <= fuel')%nat ->
    loop fuel' d b st = Some x.
Proof.
  induction fuel as [|fuel IH]; intros st x fuel' H Hle; [discriminate|].
  destruct fuel' as [|fuel']; [lia|].
  cbn [loop] in H |- *.
  destruct (execute_fetchall d (length (fetched st)) (last_id st) b)
    as [rows|e]; [|exact H].
  destruct rows as [|r0 rest]; [exact H|].
  destruct (match writer st with
            | None => (keys r0, csvfile st ++ [Header (keys r0)])
            | Some w => (w, csvfile st)
            end) as [w out].
  apply IH; [exact H | lia].
Qed.

Lemma loop_from_start (fuel : nat) :
  (length t < fuel)%nat ->
  exists st res,
    loop fuel d b (loop_init c) = Some (st, res)
    /\ Shape t b c st /\ Stop d st res.
Proof.
  intros Hf.
  destruct (loop_total fuel (loop_init c)) as (st & res & E).
  { pose proof (filter_length_le (id_gt (last_id (loop_init c))) t). lia. }
  exists st, res. split; [exact E|].
  apply (loop_spec fuel (loop_init c)); [apply Shape_init | constructor | exact E].
Qed.

End LoopFacts.

(* ================================================================== *)
(** * The pages of a run *)

Section Pages.

Variable t : list Row.
Variable b : nat.

Lemma last_app_cons (p l : list Row) (r d d' : Row) :
  last (p ++ r :: l) d = last (r :: l) d'.
Proof.
  induction p as [|x p IH]; simpl.
  - revert r. induction l as [|y l IHl]; intros r; [reflexivity|].
    change (last (r :: y :: l) d) with (last (y :: l) d).
    change (last (r :: y :: l) d') with (last (y :: l) d').
    apply IHl.
  - destruct (p ++ r :: l) eqn:E; [now destruct p|]. exact IH.
Qed.

Lemma page_end_app (c : Z) (p q : list Row) :
  page_end c (p ++ q) = page_end (page_end c p) q.
Proof.
  destruct q as [|r l]; [now rewrite List.app_nil_r|].
  destruct p as [|x p]; [reflexivity|].
  change (page_end c ((x :: p) ++ r :: l))
    with (ID (last ((x :: p) ++ r :: l) x)).
  now rewrite (last_app_cons (x :: p) l r x r).
Qed.

(** The lower bound after the pages is the identifier of the last row
    fetched, or the starting one when no row was fetched. *)
Lemma end_of_all_rows (c : Z) (ps : list (Z * list Row)) :
  end_of c ps = page_end c (all_rows ps).
Proof.
  revert c. induction ps as [|[lo p] ps IH]; intros c; [reflexivity|].
  cbn [end_of]. rewrite IH. unfold all_rows. cbn [map snd concat].
  now rewrite page_end_app.
Qed.

Lemma pages_bounds (c : Z) (ps : list (Z * list Row)) :
  pages_from t b c ps ->
  c <= end_of c ps /\
  Forall (fun r => In r t /\ c < ID r /\ ID r <= end_of c ps) (all_rows ps).
Proof.
  revert c. induction ps as [|[lo p] ps IH]; intros c; simpl.
  - intros _. split; [lia | constructor].
  - intros (-> & Hp & _ & Hrest).
    destruct (IH _ Hrest) as [Hle Hall].
    destruct (page_end_spec t c b) as (H1 & H2 & _).
    rewrite <- Hp in H1, H2.
    split; [lia|].
    unfold all_rows. cbn [map snd concat]. apply Forall_app. split.
    + rewrite Forall_forall in H2 |- *. intros r Hr.
      destruct (H2 r Hr) as [Ha Hb].
      assert (Hin : In r t).
      { rewrite Hp in Hr. now apply select_In in Hr. }
      repeat split; [exact Hin | lia | lia].
    + eapply Forall_impl; [|exact Hall].
      intros r (Ha & Hb & Hc). repeat split; [exact Ha | lia | lia].
Qed.

Lemma pages_from_last (c : Z) (ps : list (Z * list Row)) (lo : Z)
    (p : list Row) :
  pages_from t b c (ps ++ [(lo, p)]) ->
  lo = end_of c ps /\ p = select t (end_of c ps) b.
Proof.
  revert c. induction ps as [|[l q] ps IH]; intros c; simpl.
  - tauto.
  - intros (_ & _ & _ & Hrest). now apply IH.
Qed.

Lemma pages_chained (c : Z) (ps : list (Z * list Row)) :
  pages_from t b c ps -> chained ps.
Proof.
  revert c. induction ps as [|[lo p] ps IH]; intros c; [trivial|].
  destruct ps as [|[lo' p'] ps]; [simpl; trivial|].
  intros (-> & Hp & Hne & Hrest).
  split; [|now apply (IH (page_end c p))].
  destruct Hrest as (-> & _).
  destruct p as [|r0 p0]; [now specialize (Hne eq_refl)|].
  exists r0. split; [discriminate | reflexivity].
Qed.

Lemma pages_first (c : Z) (ps : list (Z * list Row)) :
  pages_from t b c ps ->
  match ps with
  | [] => True
  | (lo, p) :: _ => lo = c /\ p = select t c b
  end.
Proof. destruct ps as [|[lo p] ps]; simpl; tauto. Qed.

(** The first row fetched is the first row of the first page. *)
Lemma pages_head (c : Z) (ps : list (Z * list Row)) (r0 : Row)
    (rest : list Row) :
  pages_from t b c ps -> all_rows ps = r0 :: rest ->
  exists lo p more, ps = (lo, r0 :: p) :: more.
Proof.
  destruct ps as [|[lo p] ps]; [discriminate|].
  intros (_ & _ & Hne & _) E.
  destruct p as [|x p].
  - rewrite (Hne eq_refl) in E. discriminate.
  - unfold all_rows in E. simpl in E. injection E as -> _.
    now exists lo, p, ps.
Qed.

(** ** Tables listed by strictly increasing identifier *)

Lemma increasing_from_sorted (l : list Row) (lo : Z) :
  increasing_from lo l = true ->
  Forall (fun r => lo < ID r) l /\ StronglySorted lt_ID l.
Proof.
  revert lo. induction l as [|r l IH]; intros lo; simpl.
  - intros _. split; constructor.
  - intros H. apply andb_true_iff in H. destruct H as [H1 H2].
    apply Z.ltb_lt in H1. destruct (IH _ H2) as [Hall Hs].
    split.
    + constructor; [exact H1|].
      eapply Forall_impl; [|exact Hall]. simpl. intros; lia.
    + constructor; [exact Hs | exact Hall].
Qed.

Lemma strictly_increasing_sorted (l : list Row) :
  strictly_increasing l = true -> StronglySorted lt_ID l.
Proof.
  destruct l as [|r l]; [constructor|]. simpl. intros H.
  destruct (increasing_from_sorted _ _ H) as [Hall Hs].
  now constructor.
Qed.

Hypothesis sorted : StronglySorted lt_ID t.

Lemma select_sorted_table (lo : Z) (n : nat) :
  select t lo n = firstn n (filter (id_gt lo) t).
Proof.
  unfold select. rewrite order_by_ID_id; [reflexivity|].
  now apply filter_sorted.
Qed.

Lemma filter_filter_gt (lo lo' : Z) (l : list Row) :
  lo <= lo' ->
  filter (id_gt lo') (filter (id_gt lo) l) = filter (id_gt lo') l.
Proof.
  intros Hle. induction l as [|r l IH]; simpl; [reflexivity|].
  destruct (id_gt lo r) eqn:E1; destruct (id_gt lo' r) eqn:E2; simpl;
    rewrite ?E2, ?IH; try reflexivity.
  unfold id_gt in E1, E2.
  apply Z.ltb_ge in E1. apply Z.ltb_lt in E2. lia.
Qed.

Lemma filter_all (p : Row -> bool) (l : list Row) :
  Forall (fun r => p r = true) l -> filter p l = l.
Proof.
  induction 1 as [|r l Hr _ IH]; simpl; [reflexivity|].
  now rewrite Hr, IH.
Qed.

Lemma filter_none (p : Row -> bool) (l : list Row) :
  Forall (fun r => p r = false) l -> filter p l = [].
Proof.
  induction 1 as [|r l Hr _ IH]; simpl; [reflexivity|].
  now rewrite Hr.
Qed.

Lemma sorted_app_inv (l1 l2 : list Row) :
  StronglySorted lt_ID (l1 ++ l2) ->
  StronglySorted lt_ID l1 /\ StronglySorted lt_ID l2 /\
  forall x y, In x l1 -> In y l2 -> ID x < ID y.
Proof.
  induction l1 as [|r l1 IH]; simpl; intros H.
  - repeat split; [constructor | exact H | contradiction].
  - inversion H as [|? ? Hs Hall]; subst.
    destruct (IH Hs) as (H1 & H2 & H3).
    rewrite Forall_forall in Hall.
    repeat split.
    + constructor; [exact H1|]. apply Forall_forall. intros x Hx.
      apply Hall, in_or_app. now left.
    + exact H2.
    + intros x y [<- | Hx] Hy.
      * apply Hall, in_or_app. now right.
      * now apply H3.
Qed.

Lemma sorted_last_lt (l : list Row) (d x : Row) :
  StronglySorted lt_ID l -> In x l -> ID x <= ID (last l d).
Proof.
  intros Hs. apply sorted_last_max.
  clear x. induction Hs as [|r l Hs IH Hall]; constructor; [exact IH|].
  eapply Forall_impl; [|exact Hall]. unfold lt_ID, le_ID. intros; lia.
Qed.

(** Above its last row, a sorted list that starts with [l1] keeps exactly
    what follows [l1]. *)
Lemma filter_above_prefix (l1 l2 : list Row) (d : Row) :
  StronglySorted lt_ID (l1 ++ l2) -> l1 <> [] ->
  filter (id_gt (ID (last l1 d))) (l1 ++ l2) = l2.
Proof.
  intros Hs Hne.
  destruct (sorted_app_inv _ _ Hs) as (H1 & H2 & H3).
  rewrite filter_app, filter_none, filter_all; [reflexivity | |].
  - apply Forall_forall. intros y Hy. unfold id_gt. apply Z.ltb_lt.
    apply H3; [now apply last_In | exact Hy].
  - apply Forall_forall. intros x Hx. unfold id_gt. apply Z.ltb_ge.
    now apply sorted_last_lt.
Qed.

(** The rows still to fetch after a page are those that followed it. *)
Lemma next_pending (lo : Z) (n : nat) :
  select t lo n <> [] ->
  filter (id_gt (page_end lo (select t lo n))) t
  = skipn n (filter (id_gt lo) t).
Proof.
  intros Hne.
  destruct (page_end_spec t lo n) as (Hle & _ & _).
  rewrite <- (filter_filter_gt lo _ t Hle).
  rewrite select_sorted_table in *.
  set (L := filter (id_gt lo) t) in *.
  assert (HL : StronglySorted lt_ID L) by now apply filter_sorted.
  destruct (firstn n L) as [|r0 p] eqn:E; [congruence|].
  unfold page_end. rewrite <- E.
  rewrite <- (firstn_skipn n L) at 2.
  apply filter_above_prefix.
  - now rewrite firstn_skipn.
  - congruence.
Qed.

(** Pages and what is left above the last one make up the rows above the
    starting checkpoint: no row is skipped and none comes twice. *)
Lemma pages_cover (c : Z) (ps : list (Z * list Row)) :
  pages_from t b c ps ->
  all_rows ps ++ filter (id_gt (end_of c ps)) t = filter (id_gt c) t.
Proof.
  revert c. induction ps as [|[lo p] ps IH]; intros c; [reflexivity|].
  intros (_ & Hp & Hne & Hrest).
  unfold all_rows. cbn [map snd concat end_of]. fold (all_rows ps).
  rewrite <- app_assoc, (IH _ Hrest).
  destruct p as [|r0 p0] eqn:Ep.
  - reflexivity.
  - rewrite <- Ep in *. rewrite Hp.
    rewrite next_pending by (rewrite <- Hp, Ep; discriminate).
    rewrite select_sorted_table. apply firstn_skipn.
Qed.

Lemma pages_sorted (c : Z) (ps : list (Z * list Row)) :
  pages_from t b c ps -> StronglySorted lt_ID (all_rows ps).
Proof.
  intros H. pose proof (pages_cover c ps H) as E.
  assert (Hs : StronglySorted lt_ID (filter (id_gt c) t))
    by now apply filter_sorted.
  rewrite <- E in Hs. now apply sorted_app_inv in Hs.
Qed.

End Pages.

Lemma sorted_ids (l : list Row) :
  StronglySorted lt_ID l -> StronglySorted Z.lt (map ID l).
Proof.
  induction 1 as [|r l Hs IH Hall]; simpl; constructor; [exact IH|].
  apply Forall_forall. intros i Hi. apply in_map_iff in Hi.
  destruct Hi as (x & <- & Hx). rewrite Forall_forall in Hall.
  now apply Hall.
Qed.

Lemma increasing_NoDup (l : list Z) : StronglySorted Z.lt l -> NoDup l.
Proof.
  induction 1 as [|i l Hs IH Hall]; constructor; [|exact IH].
  intros Hin. rewrite Forall_forall in Hall. specialize (Hall _ Hin). lia.
Qed.

(* ================================================================== *)
(** * Checkpoint store: reading and writing [last_id.txt] *)

Section Checkpoint.

Lemma read_last_id_text (s : string) :
  read_last_id (Some s) =
  match parse_signed (strip s) with
  | Some n => n
  | None => 0
  end.
Proof.
  unfold read_last_id, py_int. simpl. rewrite strip_strip.
  now destruct (parse_signed (strip s)).
Qed.

Lemma write_last_id_text (n : Z) (f : File) :
  write_last_id n f = Some (py_str n).
Proof. reflexivity. Qed.

Lemma read_py_str (n : Z) : read_last_id (Some (py_str n)) = n.
Proof.
  rewrite read_last_id_text, strip_no_space by apply no_space_py_str.
  now rewrite parse_signed_py_str.
Qed.

Lemma read_write_last_id (n : Z) (f : File) :
  read_last_id (write_last_id n f) = n.
Proof. rewrite write_last_id_text. apply read_py_str. Qed.

(** X9.  Whitespace around the decimal text in [last_id.txt], such as the
    newline an editor appends, is ignored by [read_last_id]: the integer is
    read all the same. *)
Lemma read_last_id_padded (n : Z) (w1 w2 : string) :
  all_space w1 -> all_space w2 ->
  read_last_id (Some (w1 ++ py_str n ++ w2)%string) = n.
Proof.
  intros H1 H2. rewrite read_last_id_text.
  rewrite strip_padding by (auto using no_space_py_str).
  now rewrite parse_signed_py_str.
Qed.

Example read_last_id_examples :
  map read_last_id
    [None; Some ""%string; Some "   "%string; Some "12500"%string;
     Some "12500
"%string; Some "abc"%string; Some "12a"%string; Some "1.5"%string;
     Some "-7"%string; Some "+7"%string; Some "1_000"%string;
     Some "1__0"%string; Some "0x10"%string; Some "007"%string]
  = [0; 0; 0; 12500; 12500; 0; 0; 0; -7; 7; 1000; 0; 0; 7].
Proof. reflexivity. Qed.

End Checkpoint.

(* ================================================================== *)
(** * One run *)

Section RunFacts.

Variable e : Env.
Variable fs : Files.

Let c := read_last_id (last_id_txt fs).

Lemma export_not_connected :
  connect_ok (db e) = false ->
  export e fs =
  {| status := Raised DataSourceError; files := fs; pages := [];
     rows_exported := 0; uploads := []; saved := [] |}.
Proof. intros H. unfold export, export_with. now rewrite H. Qed.

Lemma export_connected :
  connect_ok (db e) = true ->
  exists st res,
    (forall fuel, (length (table (db e)) < fuel)%nat ->
       loop fuel (db e) (BATCH_SIZE e) (loop_init c) = Some (st, res))
    /\ Shape (table (db e)) (BATCH_SIZE e) c st
    /\ Stop (db e) st res
    /\ export e fs = after_loop e fs st res.
Proof.
  intros H.
  destruct (loop_from_start (db e) (BATCH_SIZE e) c
              (S (length (table (db e)))) (Nat.lt_succ_diag_r _))
    as (st & res & E & Hs & Ht).
  exists st, res.
  split; [|split; [exact Hs | split; [exact Ht|]]].
  - intros fuel Hf. apply (loop_more_fuel _ _ _ _ _ _ E). lia.
  - unfold export, export_with. rewrite H. simpl negb. cbv iota.
    fold c. now rewrite E.
Qed.

Lemma after_loop_pages (st : Loop) (res : Result unit) :
  pages (after_loop e fs st res) = fetched st
  /\ csv (files (after_loop e fs st res)) = Some (csvfile st)
  /\ rows_exported (after_loop e fs st res) = total_exported st.
Proof.
  unfold after_loop. destruct res; [|auto].
  destruct (total_exported st =? 0)%nat; [auto|].
  destruct (scp_ok e); auto.
Qed.

(** [export()] returns or raises: the loop always ends. *)
Lemma export_ends : status (export e fs) <> Running.
Proof.
  destruct (connect_ok (db e)) eqn:H.
  - destruct (export_connected H) as (st & res & _ & _ & _ & ->).
    unfold after_loop. destruct res; [|discriminate].
    destruct (total_exported st =? 0)%nat; [discriminate|].
    destruct (scp_ok e); discriminate.
  - rewrite (export_not_connected H). discriminate.
Qed.

Lemma export_fuel (fuel : nat) :
  (length (table (db e)) < fuel)%nat -> export_with fuel e fs = export e fs.
Proof.
  intros Hf. unfold export, export_with.
  destruct (negb (connect_ok (db e))) eqn:H; [reflexivity|].
  apply negb_false_iff in H.
  destruct (export_connected H) as (st & res & E & _).
  fold c. rewrite (E _ Hf), (E _ (Nat.lt_succ_diag_r _)). reflexivity.
Qed.

End RunFacts.

Lemma count_headers_data (l : list Row) : count_headers (map Data l) = 0%nat.
Proof. induction l; simpl; auto. Qed.

Lemma data_rows_data (l : list Row) : data_rows (map Data l) = l.
Proof. induction l; simpl; congruence. Qed.

Lemma all_rows_nonempty (ps : list (Z * list Row)) (lo : Z) (p : list Row) :
  In (lo, p) ps -> p <> [] -> all_rows ps <> [].
Proof.
  induction ps as [|[l q] ps IH]; [contradiction|].
  unfold all_rows. cbn [map snd concat].
  intros [H | H] Hp.
  - injection H as -> ->. destruct p; [congruence | discriminate].
  - intros E. apply app_eq_nil in E. destruct E as [_ E].
    now apply (IH H Hp).
Qed.

(* ================================================================== *)
(** * Properties of the checkpoint store *)

(** C7.  Reading the checkpoint never fails the run.  [read_last_id] is a
    total function of the state of the checkpoint file: it gives 0 when the
    file is absent, when it is empty and when its text, stripped of
    surrounding whitespace, is not an integer literal; otherwise it gives
    the integer the text denotes. *)
Theorem read_last_id_never_fails :
  read_last_id None = 0
  /\ read_last_id (Some EmptyString) = 0
  /\ forall s : string,
       read_last_id (Some s) =
       match parse_signed (strip s) with
       | Some n => n
       | None => 0
       end.
Proof.
  split; [reflexivity | split; [reflexivity|]].
  exact read_last_id_text.
Qed.

(** C10.  Checkpoint persistence round-trips: for a non-negative [n],
    [write_last_id n] leaves the decimal text of [n] in the file, whatever
    the file held, and [read_last_id] then returns [n]. *)
Theorem checkpoint_roundtrip (n : Z) (f : File) :
  0 <= n ->
  write_last_id n f = Some (py_str n)
  /\ read_last_id (write_last_id n f) = n.
Proof.
  intros _. split; [apply write_last_id_text | apply read_write_last_id].
Qed.

Lemma checkpoint_roundtrip_witness :
  0 <= 12500
  /\ write_last_id 12500 (Some "5000"%string) = Some (py_str 12500)
  /\ read_last_id (write_last_id 12500 (Some "5000"%string)) = 12500.
Proof.
  split; [lia|].
  apply (checkpoint_roundtrip 12500 (Some "5000"%string)). lia.
Defined.

(** C6, as the code has it.  [write_last_id] rewrites the checkpoint file in
    place: the file is emptied, then the decimal text is written.  Between
    the two steps the file is empty, which [read_last_id] takes for 0; the
    old text, the empty file and the complete new text are the only
    contents that can be found, and the write ends with the new text. *)
Theorem write_last_id_steps (n : Z) (f : File) :
  observable (write_last_id_ops n) f = [f; Some EmptyString; Some (py_str n)]
  /\ map read_last_id (observable (write_last_id_ops n) f)
     = [read_last_id f; 0; n]
  /\ write_last_id n f = Some (py_str n).
Proof.
  split; [reflexivity | split; [|reflexivity]].
  cbn [observable write_last_id_ops write_text_ops length seq map firstn
       run_ops fold_left apply_op].
  change (append EmptyString (py_str n)) with (py_str n).
  now rewrite read_py_str.
Qed.

(** C6, as stated, fails: while 42 is written over 41 the file can be found
    empty, which is neither the old checkpoint nor the new one. *)
Lemma checkpoint_write_not_atomic : ~ atomic_write 42 (Some "41"%string).
Proof.
  intros H.
  destruct (H (Some EmptyString)) as [E | E]; [|discriminate E..].
  right. left. reflexivity.
Qed.

(* ================================================================== *)
(** * Properties of a run *)

(** A run that finds no row above the checkpoint. *)
Lemma empty_run (e : Env) (fs : Files) :
  connect_ok (db e) = true ->
  query_fails_at (db e) <> Some 0%nat ->
  filter (id_gt (read_last_id (last_id_txt fs))) (table (db e)) = [] ->
  export e fs =
  {| status := Returned;
     files := {| last_id_txt := last_id_txt fs; csv := Some [] |};
     pages := [(read_last_id (last_id_txt fs), [])];
     rows_exported := 0; uploads := []; saved := [] |}.
Proof.
  intros Hc Hq Hf. unfold export, export_with. rewrite Hc.
  cbn [negb loop loop_init fetched length last_id].
  assert (E : execute_fetchall (db e) 0 (read_last_id (last_id_txt fs))
                (BATCH_SIZE e) = Ok []).
  { unfold execute_fetchall, select. rewrite Hf. cbn [order_by_ID].
    rewrite firstn_nil.
    destruct (query_fails_at (db e)) as [[|j]|]; try reflexivity; congruence. }
  rewrite E. reflexivity.
Qed.

(** C4, at checkpoint 5 over the rows 1..5.  Nothing is written into the
    CSV file, nothing is transferred, [last_id.txt] keeps its text and the
    process exits with 0; but the CSV file, absent before the run, exists
    (empty) after it. *)
Theorem empty_run_leaves_file :
  let fs := resumed "5" in
  let e := healthy (rows_upto 5) 5000 in
  let r := export e fs in
  read_last_id (last_id_txt fs) = 5
  /\ filter (id_gt 5) (table (db e)) = []
  /\ main e fs = (files r, Some 0)
  /\ status r = Returned
  /\ uploads r = []
  /\ saved r = []
  /\ last_id_txt (files r) = last_id_txt fs
  /\ csv fs = None
  /\ csv (files r) = Some [].
Proof. vm_compute. repeat split. Qed.

(** C5, as the code has it.  When the data source raises, the process exits
    with 1, [last_id.txt] is untouched and nothing is transferred.  If the
    connection had been made, the CSV file stays in the working directory
    with the header and the rows of the pages fetched before the error;
    if the connection itself failed, no file was opened. *)
Theorem data_source_error_keeps_partial_file (e : Env) (fs : Files) :
  status (export e fs) = Raised DataSourceError ->
  let r := export e fs in
  main e fs = (files r, Some 1)
  /\ last_id_txt (files r) = last_id_txt fs
  /\ saved r = []
  /\ uploads r = []
  /\ Forall nonempty (pages r)
  /\ csv (files r) =
     if connect_ok (db e) then Some (artifact (all_rows (pages r)))
     else csv fs.
Proof.
  intros Hst r. subst r. unfold main, exit_code. rewrite Hst.
  split; [reflexivity|]. revert Hst.
  destruct (connect_ok (db e)) eqn:Hc.
  - destruct (export_connected e fs Hc) as (st & res & _ & Hs & Ht & ->).
    unfold after_loop.
    destruct res as [[]|x].
    + destruct (total_exported st =? 0)%nat; [discriminate|].
      destruct (scp_ok e); discriminate.
    + cbn [status files last_id_txt saved uploads pages csv].
      intros _. destruct Ht as (_ & _ & Hne).
      repeat split; try assumption.
      now rewrite (shape_csv _ _ _ _ Hs).
  - rewrite (export_not_connected e fs Hc). intros _.
    cbn [status files last_id_txt saved uploads pages csv].
    repeat split. constructor.
Qed.

Lemma data_source_error_keeps_partial_file_witness :
  let e := failing_at 1 (rows_upto 5) 2 in
  let r := export e fresh in
  status r = Raised DataSourceError
  /\ main e fresh = (files r, Some 1)
  /\ last_id_txt (files r) = last_id_txt fresh
  /\ saved r = []
  /\ uploads r = []
  /\ Forall nonempty (pages r)
  /\ csv (files r) =
     if connect_ok (db e) then Some (artifact (all_rows (pages r)))
     else csv fresh.
Proof.
  split; [reflexivity|].
  apply (data_source_error_keeps_partial_file
           (failing_at 1 (rows_upto 5) 2) fresh).
  reflexivity.
Defined.

(** C5, as stated, fails: the second query raises after a page of two rows
    was written; the CSV file, absent before the run, is still there with
    the header and the two rows. *)
Lemma partial_artifact_not_discarded :
  let r := export (failing_at 1 (rows_upto 5) 2) fresh in
  status r = Raised DataSourceError
  /\ csv fresh = None
  /\ csv (files r)
     = Some [Header ["ID"%string; "TYPE_ID"%string];
             Data (simple_row 1); Data (simple_row 2)]
  /\ csv (files r) <> None.
Proof. vm_compute. repeat split. discriminate. Qed.

(** C8.  In a run that fetches a page with rows, the first page is such a
    page, and the CSV file holds one header, made of the column names of
    the first row of that page in their order, followed by the rows of all
    the pages in fetch order and nothing else. *)
Theorem header_written_once (e : Env) (fs : Files) :
  (exists lo p, In (lo, p) (pages (export e fs)) /\ p <> []) ->
  exists lo r0 p more content,
    pages (export e fs) = (lo, r0 :: p) :: more
    /\ csv (files (export e fs)) = Some content
    /\ content = Header (keys r0) :: map Data (all_rows (pages (export e fs)))
    /\ count_headers content = 1%nat
    /\ data_rows content = all_rows (pages (export e fs)).
Proof.
  intros (lo & p & Hin & Hp).
  pose proof (all_rows_nonempty _ _ _ Hin Hp) as Hne.
  destruct (connect_ok (db e)) eqn:Hc.
  - destruct (export_connected e fs Hc) as (st & res & _ & Hs & _ & E).
    rewrite E in *.
    destruct (after_loop_pages e fs st res) as (Ep & Ec & _).
    rewrite Ep in *. rewrite Ec.
    destruct (all_rows (fetched st)) as [|r0 rest] eqn:Er; [congruence|].
    destruct (pages_head _ _ _ _ r0 rest (shape_pages _ _ _ _ Hs) Er)
      as (lo0 & p0 & more & Ef).
    exists lo0, r0, p0, more, (csvfile st).
    rewrite (shape_csv _ _ _ _ Hs), Er. cbn [artifact count_headers data_rows].
    rewrite count_headers_data, data_rows_data. auto.
  - rewrite (export_not_connected e fs Hc) in Hin. contradiction.
Qed.

Lemma header_written_once_witness :
  let r := export (healthy (rows_upto 5) 2) fresh in
  (exists lo p, In (lo, p) (pages r) /\ p <> [])
  /\ exists lo r0 p more content,
       pages r = (lo, r0 :: p) :: more
       /\ csv (files r) = Some content
       /\ content = Header (keys r0) :: map Data (all_rows (pages r))
       /\ count_headers content = 1%nat
       /\ data_rows content = all_rows (pages r).
Proof.
  assert (H : exists lo p,
             In (lo, p) (pages (export (healthy (rows_upto 5) 2) fresh))
             /\ p <> []).
  { exists 0, [simple_row 1; simple_row 2]. split; [now left | discriminate]. }
  split; [exact H|].
  exact (header_written_once (healthy (rows_upto 5) 2) fresh H).
Defined.

(** Left through [break] with a positive page size over a sorted table, the
    loop has fetched every row above the starting checkpoint. *)
Lemma loop_complete (d : DataSource) (b : nat) (c : Z) (st : Loop) :
  StronglySorted lt_ID (table d) -> (0 < b)%nat ->
  Shape (table d) b c st -> Stop d st (Ok tt) ->
  all_rows (fetched st) = filter (id_gt c) (table d).
Proof.
  intros Hinc Hb Hs (ps & Ef & _).
  pose proof (shape_pages _ _ _ _ Hs) as Hp. rewrite Ef in Hp |- *.
  pose proof (pages_cover _ _ Hinc _ _ Hp) as Hcov.
  destruct (pages_from_last _ _ _ _ _ _ Hp) as [_ Hsel].
  rewrite end_of_app in Hcov. cbn [page_end] in Hcov.
  rewrite (select_sorted_table _ Hinc) in Hsel.
  destruct (filter (id_gt (end_of c ps)) (table d)) as [|x l].
  - now rewrite List.app_nil_r in Hcov.
  - destruct b; [lia | discriminate Hsel].
Qed.

(** A run without failures over a sorted table, with a positive page size:
    what it leaves depends on the rows above the checkpoint only. *)
Lemma export_complete (e : Env) (fs : Files) :
  connect_ok (db e) = true ->
  query_fails_at (db e) = None ->
  (0 < BATCH_SIZE e)%nat ->
  StronglySorted lt_ID (table (db e)) ->
  let c := read_last_id (last_id_txt fs) in
  let P := filter (id_gt c) (table (db e)) in
  exists st,
    export e fs = after_loop e fs st (Ok tt)
    /\ all_rows (fetched st) = P
    /\ csvfile st = artifact P
    /\ total_exported st = length P
    /\ new_last_id st = page_end c P.
Proof.
  intros Hc Hq Hb Hinc c P.
  destruct (export_connected e fs Hc) as (st & res & _ & Hs & Ht & E).
  destruct res as [[]|x].
  2:{ destruct Ht as (_ & Hq' & _). congruence. }
  exists st. split; [exact E|].
  pose proof (loop_complete _ _ _ _ Hinc Hb Hs Ht) as Hall.
  fold c in Hall. fold P in Hall.
  destruct Hs as [Hp Hl Hn Ht' Hw Hcsv].
  rewrite Hcsv, Ht', Hn, Hl, end_of_all_rows, Hall. auto.
Qed.

(** C2.  Over a table listed by strictly increasing identifier, the rows of
    the pages of a run, taken in fetch order, have strictly increasing
    identifiers, none of them twice and none at or below the checkpoint the
    run started from; the first page is asked above that checkpoint and
    each later page above the identifier of the last row of the page
    before it. *)
Theorem pages_strictly_increasing (e : Env) (fs : Files) :
  strictly_increasing (table (db e)) = true ->
  let c := read_last_id (last_id_txt fs) in
  let ps := pages (export e fs) in
  StronglySorted Z.lt (map ID (all_rows ps))
  /\ NoDup (map ID (all_rows ps))
  /\ Forall (fun i => c < i) (map ID (all_rows ps))
  /\ match ps with
     | [] => True
     | (lo, _) :: _ => lo = c
     end
  /\ chained ps.
Proof.
  intros Hinc c ps. apply strictly_increasing_sorted in Hinc.
  destruct (connect_ok (db e)) eqn:Hc.
  - destruct (export_connected e fs Hc) as (st & res & _ & Hs & _ & E).
    destruct (after_loop_pages e fs st res) as (Ep & _ & _).
    assert (Hps : ps = fetched st) by (subst ps; now rewrite E).
    pose proof (shape_pages _ _ _ _ Hs) as Hp. fold c in Hp.
    rewrite <- Hps in Hp. clearbody ps.
    pose proof (sorted_ids _ (pages_sorted _ _ Hinc _ _ Hp)) as Hsorted.
    split; [exact Hsorted|].
    split; [now apply increasing_NoDup|].
    split.
    + destruct (pages_bounds _ _ _ _ Hp) as [_ Hall].
      apply Forall_forall. intros i Hi. apply in_map_iff in Hi.
      destruct Hi as (x & <- & Hx). rewrite Forall_forall in Hall.
      now apply Hall.
    + split; [|now apply (pages_chained _ _ _ _ Hp)].
      destruct ps as [|[lo p] ps']; [trivial|]. now destruct Hp.
  - subst ps. rewrite (export_not_connected e fs Hc). simpl.
    repeat split; constructor.
Qed.

Lemma pages_strictly_increasing_witness :
  let e := healthy (rows_upto 7) 3 in
  let fs := resumed "2" in
  let c := read_last_id (last_id_txt fs) in
  let ps := pages (export e fs) in
  strictly_increasing (table (db e)) = true
  /\ map (fun x => (fst x, map ID (snd x))) ps
     = [(2, [3; 4; 5]); (5, [6; 7]); (7, [])]
  /\ StronglySorted Z.lt (map ID (all_rows ps))
  /\ NoDup (map ID (all_rows ps))
  /\ Forall (fun i => c < i) (map ID (all_rows ps))
  /\ match ps with
     | [] => True
     | (lo, _) :: _ => lo = c
     end
  /\ chained ps.
Proof.
  split; [reflexivity|]. split; [reflexivity|].
  apply (pages_strictly_increasing (healthy (rows_upto 7) 3) (resumed "2")).
  reflexivity.
Defined.

(** C1.  The checkpoint is written exactly in the runs that exported a row
    and whose transfer succeeded.  What is written is the decimal text of
    the highest identifier among the rows exported, which the next run
    reads back.  In every other run [last_id.txt] is left as it was; when
    the transfer fails the run raises and the CSV file that was offered for
    transfer stays in the working directory. *)
Theorem checkpoint_advances_after_transfer (e : Env) (fs : Files) :
  let r := export e fs in
  let exported := all_rows (pages r) in
  rows_exported r = length exported
  /\ (saved r <> [] <->
      (0 < rows_exported r)%nat
      /\ exists u, In u (uploads r) /\ delivered u = true)
  /\ (forall v, In v (saved r) ->
        saved r = [v]
        /\ last_id_txt (files r) = Some (py_str v)
        /\ read_last_id (last_id_txt (files r)) = v
        /\ (exists row, In row exported /\ ID row = v)
        /\ Forall (fun row => ID row <= v) exported)
  /\ (saved r = [] -> last_id_txt (files r) = last_id_txt fs)
  /\ (forall u, In u (uploads r) -> delivered u = false ->
        status r = Raised TransferError
        /\ saved r = []
        /\ last_id_txt (files r) = last_id_txt fs
        /\ csv (files r) = Some (upload_content u)).
Proof.
  intros r exported. subst r exported.
  destruct (connect_ok (db e)) eqn:Hc.
  2:{ rewrite (export_not_connected e fs Hc). simpl.
      split; [reflexivity|]. split; [|split; [|split]].
      - split; [congruence | intros [H _]; lia].
      - contradiction.
      - reflexivity.
      - contradiction. }
  destruct (export_connected e fs Hc) as (st & res & _ & Hs & _ & ->).
  destruct Hs as [Hp Hl Hn Ht Hw Hcsv].
  destruct (after_loop_pages e fs st res) as (Ep & _ & Er).
  rewrite Ep, Er. split; [exact Ht|].
  unfold after_loop.
  destruct res as [[]|x].
  2:{ simpl. split; [|split; [|split]].
      - split; [congruence | intros (_ & u & [] & _)].
      - contradiction.
      - reflexivity.
      - contradiction. }
  destruct (total_exported st =? 0)%nat eqn:E0.
  { apply Nat.eqb_eq in E0. simpl. split; [|split; [|split]].
    - split; [congruence | intros [H _]; lia].
    - contradiction.
    - reflexivity.
    - contradiction. }
  apply Nat.eqb_neq in E0.
  destruct (scp_ok e) eqn:Hscp;
    cbn [saved uploads files last_id_txt csv status rows_exported pages].
  - split; [|split; [|split]].
    + split; [intros _ | discriminate].
      split; [lia|]. eexists. split; [now left | reflexivity].
    + intros v [<- | []].
      rewrite write_last_id_text, read_py_str.
      split; [reflexivity|]. split; [reflexivity|]. split; [reflexivity|].
      rewrite Hn, Hl.
      destruct (pages_bounds _ _ _ _ Hp) as [_ Hall].
      split.
      * rewrite end_of_all_rows.
        destruct (all_rows (fetched st)) as [|r0 rest] eqn:Ea.
        { simpl in Ht. lia. }
        exists (last (r0 :: rest) r0). split; [|reflexivity].
        apply last_In. discriminate.
      * eapply Forall_impl; [|exact Hall]. simpl. tauto.
    + discriminate.
    + intros u [<- | []]. simpl. discriminate.
  - split; [|split; [|split]].
    + split; [congruence|].
      intros (_ & u & [<- | []] & Hd). simpl in Hd. congruence.
    + contradiction.
    + reflexivity.
    + intros u [<- | []] _. auto.
Qed.

(** C9.  Over a finite table listed by strictly increasing identifier and
    with a positive page size the loop ends, with the same outcome for any
    fuel above the number of rows.  It is left through [break] exactly when
    a page comes back empty: that page is the last one fetched, every page
    before it has rows, and together they hold every row above the
    starting checkpoint.  The only other way out is an exception of the
    data source. *)
Theorem loop_stops_at_empty_page (d : DataSource) (b : nat) (c : Z) :
  strictly_increasing (table d) = true ->
  (0 < b)%nat ->
  exists st res,
    (forall fuel, (length (table d) < fuel)%nat ->
       loop fuel d b (loop_init c) = Some (st, res))
    /\ match res with
       | Ok _ =>
           exists ps,
             fetched st = ps ++ [(last_id st, [])]
             /\ Forall nonempty ps
             /\ all_rows ps = filter (id_gt c) (table d)
       | Raise x =>
           x = DataSourceError
           /\ query_fails_at d = Some (length (fetched st))
           /\ Forall nonempty (fetched st)
       end
    /\ (query_fails_at d = None -> res = Ok tt).
Proof.
  intros Hinc Hb. apply strictly_increasing_sorted in Hinc.
  destruct (loop_from_start d b c (S (length (table d)))
              (Nat.lt_succ_diag_r _)) as (st & res & E & Hs & Ht).
  exists st, res. split; [|split].
  - intros fuel Hf. apply (loop_more_fuel _ _ _ _ _ _ E). lia.
  - destruct res as [[]|x]; [|exact Ht].
    pose proof (loop_complete _ _ _ _ Hinc Hb Hs Ht) as Hall.
    destruct Ht as (ps & Ef & Hne).
    exists ps. split; [exact Ef | split; [exact Hne|]].
    rewrite Ef, all_rows_app, List.app_nil_r in Hall. exact Hall.
  - intros Hq. destruct res as [[]|x]; [reflexivity|].
    destruct Ht as (_ & Hq' & _). congruence.
Qed.

Lemma loop_stops_at_empty_page_witness :
  let d := {| table := rows_upto 5; connect_ok := true;
              query_fails_at := None |} in
  strictly_increasing (table d) = true
  /\ (0 < 2)%nat
  /\ exists st res,
       (forall fuel, (length (table d) < fuel)%nat ->
          loop fuel d 2 (loop_init 0) = Some (st, res))
       /\ match res with
          | Ok _ =>
              exists ps,
                fetched st = ps ++ [(last_id st, [])]
                /\ Forall nonempty ps
                /\ all_rows ps = filter (id_gt 0) (table d)
          | Raise x =>
              x = DataSourceError
              /\ query_fails_at d = Some (length (fetched st))
              /\ Forall nonempty (fetched st)
          end
       /\ (query_fails_at d = None -> res = Ok tt).
Proof.
  split; [reflexivity|]. split; [lia|].
  apply (loop_stops_at_empty_page
           {| table := rows_upto 5; connect_ok := true;
              query_fails_at := None |} 2 0); [reflexivity | lia].
Defined.

(** C3.  Over a table listed by strictly increasing identifier and a data
    source that does not fail, two runs from the same checkpoint that
    differ in their positive page size only export the same rows in the
    same order, namely all the rows above the checkpoint, leave the same
    CSV file and the same [last_id.txt], and end alike. *)
Theorem batch_size_invariance (e : Env) (fs : Files) (b1 b2 : nat) :
  strictly_increasing (table (db e)) = true ->
  query_fails_at (db e) = None ->
  (0 < b1)%nat -> (0 < b2)%nat ->
  let r1 := export (with_batch e b1) fs in
  let r2 := export (with_batch e b2) fs in
  all_rows (pages r1) = all_rows (pages r2)
  /\ (connect_ok (db e) = true ->
      all_rows (pages r1)
      = filter (id_gt (read_last_id (last_id_txt fs))) (table (db e)))
  /\ files r1 = files r2
  /\ saved r1 = saved r2
  /\ status r1 = status r2
  /\ uploads r1 = uploads r2
  /\ rows_exported r1 = rows_exported r2.
Proof.
  intros Hinc Hq H1 H2 r1 r2. subst r1 r2.
  apply strictly_increasing_sorted in Hinc.
  destruct (connect_ok (db e)) eqn:Hc.
  2:{ rewrite !export_not_connected by exact Hc.
      repeat split. discriminate. }
  destruct (export_complete (with_batch e b1) fs Hc Hq H1 Hinc)
    as (st1 & -> & Ea1 & Ec1 & Et1 & En1).
  destruct (export_complete (with_batch e b2) fs Hc Hq H2 Hinc)
    as (st2 & -> & Ea2 & Ec2 & Et2 & En2).
  cbn [with_batch db] in *.
  destruct (after_loop_pages (with_batch e b1) fs st1 (Ok tt)) as (-> & _ & _).
  destruct (after_loop_pages (with_batch e b2) fs st2 (Ok tt)) as (-> & _ & _).
  split; [congruence|]. split; [intros _; exact Ea1|].
  unfold after_loop, csv_name. cbn [with_batch ts scp_ok].
  rewrite Ec1, Ec2, Et1, Et2, En1, En2.
  destruct (length _ =? 0)%nat; [repeat split|].
  destruct (scp_ok e); repeat split.
Qed.

Lemma batch_size_invariance_witness :
  let e := healthy (rows_upto 12) 1 in
  let fs := resumed "3" in
  let r1 := export (with_batch e 1) fs in
  let r2 := export (with_batch e 7) fs in
  strictly_increasing (table (db e)) = true
  /\ query_fails_at (db e) = None
  /\ (0 < 1)%nat /\ (0 < 7)%nat
  /\ all_rows (pages r1) = all_rows (pages r2)
  /\ (connect_ok (db e) = true ->
      all_rows (pages r1)
      = filter (id_gt (read_last_id (last_id_txt fs))) (table (db e)))
  /\ files r1 = files r2
  /\ saved r1 = saved r2
  /\ status r1 = status r2
  /\ uploads r1 = uploads r2
  /\ rows_exported r1 = rows_exported r2.
Proof.
  split; [reflexivity|]. split; [reflexivity|].
  split; [lia|]. split; [lia|].
  apply (batch_size_invariance (healthy (rows_upto 12) 1) (resumed "3") 1 7);
    [reflexivity | reflexivity | lia | lia].
Defined.

(* ================================================================== *)
(** * Runs on small tables *)

(** Rows 1..12 from an absent checkpoint, five rows a page: three pages of
    5, 5 and 2 rows, then the empty page; one transfer; ["12"] saved. *)
Example three_pages :
  let r := export (healthy (rows_upto 12) 5) fresh in
  map (fun x => (fst x, length (snd x))) (pages r)
  = [(0, 5%nat); (5, 5%nat); (10, 2%nat); (12, 0%nat)]
  /\ map ID (all_rows (pages r)) = map Z.of_nat (seq 1 12)
  /\ option_map count_headers (csv (files r)) = Some 1%nat
  /\ option_map data_rows (csv (files r)) = Some (rows_upto 12)
  /\ map delivered (uploads r) = [true]
  /\ last_id_txt (files r) = Some "12"%string
  /\ main (healthy (rows_upto 12) 5) fresh = (files r, Some 0).
Proof. vm_compute. repeat split. Qed.

(** The same rows with an SCP endpoint that refuses the file. *)
Example transfer_fails :
  let r := export (unreachable (rows_upto 12) 5) (resumed "7") in
  status r = Raised TransferError
  /\ saved r = []
  /\ last_id_txt (files r) = Some "7"%string
  /\ option_map data_rows (csv (files r))
     = Some (map simple_row [8; 9; 10; 11; 12])
  /\ map delivered (uploads r) = [false]
  /\ exit_code r = Some 1.
Proof. vm_compute. repeat split. Qed.

(** The table must not repeat an identifier: with a row 1 stored twice, a
    page size of 1 exports it once and a page size of 3 twice. *)
Example repeated_identifier :
  let t := [simple_row 1; simple_row 1; simple_row 2] in
  strictly_increasing t = false
  /\ map ID (all_rows (pages (export (healthy t 1) fresh))) = [1; 2]
  /\ map ID (all_rows (pages (export (healthy t 3) fresh))) = [1; 1; 2].
Proof. vm_compute. repeat split. Qed.

(** Rows 1..12500 from an absent checkpoint, 5000 rows a page: pages of
    5000, 5000 and 2500 rows, then the empty page; all the rows in
    ascending order under one header; one transfer; ["12500"] saved. *)
Example scenario_12500 :
  let e := healthy (rows_upto (125 * 100)) (50 * 100) in
  let r := export e fresh in
  map (fun x => (fst x, length (snd x))) (pages r)
  = [(0, (50 * 100)%nat); (5000, (50 * 100)%nat); (10000, (25 * 100)%nat);
     (12500, 0%nat)]
  /\ option_map data_rows (csv (files r)) = Some (rows_upto (125 * 100))
  /\ option_map count_headers (csv (files r)) = Some 1%nat
  /\ option_map (hd (Header [])) (csv (files r))
     = Some (Header ["ID"%string; "TYPE_ID"%string])
  /\ map delivered (uploads r) = [true]
  /\ last_id_txt (files r) = Some "12500"%string
  /\ exit_code r = Some 0.
Proof. vm_compute. repeat split. Qed.

(* ================================================================== *)
(** * More on the pages *)

Section MorePages.

Variable t : list Row.
Variable b : nat.

Lemma pages_each (c : Z) (ps : list (Z * list Row)) (lo : Z) (p : list Row) :
  pages_from t b c ps -> In (lo, p) ps -> p = select t lo b.
Proof.
  revert c. induction ps as [|[l q] ps IH]; intros c; [contradiction|].
  intros (-> & Hq & _ & Hrest) [H | H].
  - injection H as <- <-. exact Hq.
  - now apply (IH _ Hrest).
Qed.

Lemma pages_from_prefix (c : Z) (ps qs : list (Z * list Row)) :
  pages_from t b c (ps ++ qs) -> pages_from t b c ps.
Proof.
  revert c. induction ps as [|[l q] ps IH]; intros c; [simpl; trivial|].
  intros (-> & Hq & Hne & Hrest). cbn [pages_from].
  split; [reflexivity | split; [exact Hq | split]].
  - intros E. apply Hne in E. now apply app_eq_nil in E.
  - now apply IH.
Qed.

Hypothesis sorted : StronglySorted lt_ID t.
Hypothesis positive : (0 < b)%nat.

(** Every page but the last one with rows is full. *)
Lemma pages_full (c : Z) (ps : list (Z * list Row)) :
  pages_from t b c ps -> Forall nonempty ps ->
  (length (all_rows ps) <= length ps * b)%nat
  /\ (ps <> [] -> (length ps * b < length (all_rows ps) + b)%nat).
Proof.
  revert c. induction ps as [|[lo p] ps IH]; intros c Hp Hne.
  - simpl. split; [lia | congruence].
  - destruct Hp as (-> & Hsel & _ & Hrest).
    apply Forall_cons_iff in Hne. destruct Hne as [Hp0 Hne'].
    unfold nonempty in Hp0. cbn [snd] in Hp0.
    destruct (IH _ Hrest Hne') as [IH1 IH2]. clear IH.
    unfold all_rows. cbn [map snd concat]. fold (all_rows ps).
    rewrite List.length_app. cbn [length].
    assert (Hle : (length p <= b)%nat).
    { rewrite Hsel. unfold select. apply firstn_le_length. }
    split; [lia|]. intros _.
    destruct ps as [|[lo' p'] ps'].
    + destruct p; [congruence | simpl; lia].
    + assert (Hfull : length p = b).
      { destruct Hrest as (_ & Hsel' & _).
        apply Forall_cons_iff in Hne'. destruct Hne' as [Hp' _].
        unfold nonempty in Hp'. cbn [snd] in Hp'.
        rewrite Hsel' in Hp'. rewrite Hsel in Hp', Hp0 |- *.
        rewrite (select_sorted_table t sorted) in Hp'.
        rewrite (next_pending t sorted) in Hp' by exact Hp0.
        rewrite (select_sorted_table t sorted c b).
        rewrite List.length_firstn.
        destruct (Nat.le_gt_cases (length (filter (id_gt c) t)) b) as [H|H].
        - rewrite skipn_all2 in Hp' by exact H. now destruct b.
        - lia. }
      specialize (IH2 ltac:(discriminate)). lia.
Qed.

End MorePages.

(** The rows a run leaves for the next one, when rows were appended to the
    table in between. *)
Lemma pending_after (t1 t2 : list Row) (c0 : Z) :
  StronglySorted lt_ID (t1 ++ t2) ->
  let P1 := filter (id_gt c0) t1 in
  P1 ++ filter (id_gt (page_end c0 P1)) (t1 ++ t2)
  = filter (id_gt c0) (t1 ++ t2).
Proof.
  intros Hs P1.
  assert (HQ : StronglySorted lt_ID (P1 ++ filter (id_gt c0) t2)).
  { subst P1. rewrite <- filter_app. now apply filter_sorted. }
  destruct P1 as [|r0 rest] eqn:E.
  - cbn [page_end app]. rewrite filter_app. fold P1 in E |- *.
    subst P1. now rewrite E.
  - assert (Hin : In (last (r0 :: rest) r0) (filter (id_gt c0) t1)).
    { subst P1. rewrite E. apply last_In. discriminate. }
    apply filter_In in Hin. destruct Hin as [_ Hgt].
    unfold id_gt in Hgt. apply Z.ltb_lt in Hgt.
    cbn [page_end].
    rewrite <- (filter_filter_gt c0 (ID (last (r0 :: rest) r0)) (t1 ++ t2))
      by lia.
    rewrite filter_app. subst P1. rewrite E.
    rewrite filter_above_prefix; [reflexivity | exact HQ | discriminate].
Qed.

(** A run without failures, with a working transfer, over a sorted table. *)
Lemma export_success (e : Env) (fs : Files) :
  connect_ok (db e) = true ->
  query_fails_at (db e) = None ->
  (0 < BATCH_SIZE e)%nat ->
  scp_ok e = true ->
  StronglySorted lt_ID (table (db e)) ->
  let c := read_last_id (last_id_txt fs) in
  let P := filter (id_gt c) (table (db e)) in
  all_rows (pages (export e fs)) = P
  /\ status (export e fs) = Returned
  /\ read_last_id (last_id_txt (files (export e fs))) = page_end c P
  /\ csv (files (export e fs)) = Some (artifact P).
Proof.
  intros Hc Hq Hb Hscp Hs c P.
  destruct (export_complete e fs Hc Hq Hb Hs)
    as (st & -> & Ea & Ec & Et & En).
  fold c in Ea, Ec, Et, En. fold P in Ea, Ec, Et, En.
  destruct (after_loop_pages e fs st (Ok tt)) as (-> & -> & _).
  split; [exact Ea|]. unfold after_loop. rewrite Hscp, Et, En, Ec.
  destruct P as [|r0 rest]; cbn [length Nat.eqb status files last_id_txt].
  - auto.
  - rewrite read_write_last_id. auto.
Qed.

(* ================================================================== *)
(** * Further properties of a run *)

(** X1.  A run never moves the checkpoint backwards, whatever the table,
    the page size and the failures: the value read from [last_id.txt] after
    the run is at least the value read before it, and it is larger exactly
    when the run saved a checkpoint. *)
Theorem checkpoint_never_decreases (e : Env) (fs : Files) :
  let c := read_last_id (last_id_txt fs) in
  let c' := read_last_id (last_id_txt (files (export e fs))) in
  c <= c' /\ (c < c' <-> saved (export e fs) <> []).
Proof.
  intros c c'. subst c'.
  destruct (connect_ok (db e)) eqn:Hc.
  2:{ rewrite (export_not_connected e fs Hc). simpl. fold c.
      split; [lia | split; [lia | congruence]]. }
  destruct (export_connected e fs Hc) as (st & res & _ & Hs & _ & ->).
  destruct Hs as [Hp Hl Hn Ht Hw Hcsv]. fold c in Hp, Hl.
  unfold after_loop.
  destruct res as [[]|x].
  2:{ simpl. fold c. split; [lia | split; [lia | congruence]]. }
  destruct (total_exported st =? 0)%nat eqn:E0.
  { simpl. fold c. split; [lia | split; [lia | congruence]]. }
  apply Nat.eqb_neq in E0.
  destruct (scp_ok e); cbn [saved files last_id_txt].
  2:{ fold c. split; [lia | split; [lia | congruence]]. }
  rewrite read_write_last_id, Hn, Hl, end_of_all_rows.
  destruct (pages_bounds _ _ _ _ Hp) as [_ Hall].
  destruct (all_rows (fetched st)) as [|r0 rest] eqn:Ea.
  { simpl in Ht. lia. }
  assert (Hin : In (last (r0 :: rest) r0) (r0 :: rest))
    by (apply last_In; discriminate).
  rewrite Forall_forall in Hall. destruct (Hall _ Hin) as (_ & Hgt & _).
  cbn [page_end]. split; [lia | split; [discriminate | intros _; lia]].
Qed.

(** X2.  What is handed to the transfer is never a partial or an empty
    file.  A run uploads at most once; when it does, the loop had been left
    through [break], the file holds the header and every row fetched, there
    is at least one such row, and the file on disk is the one uploaded,
    under the name built from the timestamp. *)
Theorem upload_is_complete_file (e : Env) (fs : Files) (u : Upload) :
  In u (uploads (export e fs)) ->
  let r := export e fs in
  uploads r = [u]
  /\ upload_name u = csv_name e
  /\ delivered u = scp_ok e
  /\ upload_content u = artifact (all_rows (pages r))
  /\ all_rows (pages r) <> []
  /\ csv (files r) = Some (upload_content u)
  /\ exists ps lo, pages r = ps ++ [(lo, [])] /\ Forall nonempty ps.
Proof.
  intros Hin r. subst r. revert Hin.
  destruct (connect_ok (db e)) eqn:Hc.
  2:{ rewrite (export_not_connected e fs Hc). contradiction. }
  destruct (export_connected e fs Hc) as (st & res & _ & Hs & Ht & ->).
  destruct Hs as [Hp Hl Hn Htot Hw Hcsv].
  unfold after_loop.
  destruct res as [[]|x]; [|contradiction].
  destruct (total_exported st =? 0)%nat eqn:E0; [contradiction|].
  apply Nat.eqb_neq in E0.
  assert (Hrows : all_rows (fetched st) <> []).
  { intros E. rewrite E in Htot. simpl in Htot. lia. }
  destruct Ht as (ps & Ef & Hne).
  destruct (scp_ok e);
    cbn [uploads pages files csv]; intros [<- | []];
    cbn [upload_name upload_content delivered];
    (repeat split; [exact Hcsv | exact Hrows | now exists ps, (last_id st)]).
Qed.

Lemma upload_is_complete_file_witness :
  let e := unreachable (rows_upto 5) 2 in
  let r := export e fresh in
  let u := {| upload_name := "b_crm_timeline_20240101_000000.csv";
              upload_content := artifact (rows_upto 5);
              delivered := false |} in
  In u (uploads r)
  /\ uploads r = [u]
  /\ upload_name u = csv_name e
  /\ delivered u = scp_ok e
  /\ upload_content u = artifact (all_rows (pages r))
  /\ all_rows (pages r) <> []
  /\ csv (files r) = Some (upload_content u)
  /\ exists ps lo, pages r = ps ++ [(lo, [])] /\ Forall nonempty ps.
Proof.
  assert (H : In {| upload_name := "b_crm_timeline_20240101_000000.csv";
                    upload_content := artifact (rows_upto 5);
                    delivered := false |}
                 (uploads (export (unreachable (rows_upto 5) 2) fresh))).
  { now left. }
  split; [exact H|].
  exact (upload_is_complete_file (unreachable (rows_upto 5) 2) fresh _ H).
Defined.

(** X3.  Whatever the table holds, in whatever order and with whatever
    repeats, a page never has more than [BATCH_SIZE] rows, its rows are
    rows of the table in ascending order of identifier, and each lies above
    the lower bound the page was asked with. *)
Theorem page_within_limit (e : Env) (fs : Files) (lo : Z) (p : list Row) :
  In (lo, p) (pages (export e fs)) ->
  (length p <= BATCH_SIZE e)%nat
  /\ StronglySorted le_ID p
  /\ Forall (fun r => In r (table (db e)) /\ lo < ID r) p.
Proof.
  destruct (connect_ok (db e)) eqn:Hc.
  2:{ rewrite (export_not_connected e fs Hc). contradiction. }
  destruct (export_connected e fs Hc) as (st & res & _ & Hs & _ & ->).
  destruct (after_loop_pages e fs st res) as (-> & _ & _).
  intros Hin.
  rewrite (pages_each _ _ _ _ _ _ (shape_pages _ _ _ _ Hs) Hin).
  split; [unfold select; apply firstn_le_length|].
  split; [apply select_sorted|].
  apply Forall_forall. intros r Hr. now apply select_In in Hr.
Qed.

Lemma page_within_limit_witness :
  let e := healthy [simple_row 4; simple_row 2; simple_row 4; simple_row 9] 2 in
  let p := [simple_row 2; simple_row 4] in
  In (0, p) (pages (export e fresh))
  /\ (length p <= BATCH_SIZE e)%nat
  /\ StronglySorted le_ID p
  /\ Forall (fun r => In r (table (db e)) /\ 0 < ID r) p.
Proof.
  assert (H : In (0, [simple_row 2; simple_row 4])
                 (pages (export
                    (healthy [simple_row 4; simple_row 2; simple_row 4;
                              simple_row 9] 2) fresh))).
  { now left. }
  split; [exact H|].
  exact (page_within_limit _ fresh 0 _ H).
Defined.

(** X4.  Over a table listed by strictly increasing identifier and a data
    source that does not fail, a run with page size [b > 0] that finds [m]
    rows above the checkpoint sends [m / b], rounded up, queries that
    return rows and one more that returns none: with [n + 1] queries sent,
    [m <= n * b < m + b]. *)
Theorem query_count (e : Env) (fs : Files) :
  strictly_increasing (table (db e)) = true ->
  connect_ok (db e) = true ->
  query_fails_at (db e) = None ->
  (0 < BATCH_SIZE e)%nat ->
  let m := length (filter (id_gt (read_last_id (last_id_txt fs)))
                     (table (db e))) in
  exists n,
    length (pages (export e fs)) = S n
    /\ (m <= n * BATCH_SIZE e)%nat
    /\ (n * BATCH_SIZE e < m + BATCH_SIZE e)%nat.
Proof.
  intros Hinc Hc Hq Hb m. apply strictly_increasing_sorted in Hinc.
  destruct (export_connected e fs Hc) as (st & res & _ & Hs & Ht & ->).
  destruct (after_loop_pages e fs st res) as (-> & _ & _).
  destruct res as [[]|x].
  2:{ destruct Ht as (_ & Hq' & _). congruence. }
  pose proof (loop_complete _ _ _ _ Hinc Hb Hs Ht) as Hall.
  destruct Ht as (ps & Ef & Hne).
  pose proof (shape_pages _ _ _ _ Hs) as Hp. rewrite Ef in Hp, Hall |- *.
  rewrite all_rows_app, List.app_nil_r in Hall.
  apply pages_from_prefix in Hp.
  destruct (pages_full _ _ Hinc Hb _ _ Hp Hne) as [H1 H2].
  rewrite Hall in H1, H2. fold m in H1, H2.
  exists (length ps). rewrite List.length_app. cbn [length].
  split; [lia|]. split; [exact H1|].
  destruct ps as [|x ps]; [simpl; lia|].
  apply H2. discriminate.
Qed.

Lemma query_count_witness :
  let e := healthy (rows_upto 10) 5 in
  strictly_increasing (table (db e)) = true
  /\ connect_ok (db e) = true
  /\ query_fails_at (db e) = None
  /\ (0 < BATCH_SIZE e)%nat
  /\ length (pages (export e fresh)) = 3%nat
  /\ exists n,
       length (pages (export e fresh)) = S n
       /\ (length (filter (id_gt (read_last_id (last_id_txt fresh)))
                     (table (db e))) <= n * BATCH_SIZE e)%nat
       /\ (n * BATCH_SIZE e
           < length (filter (id_gt (read_last_id (last_id_txt fresh)))
                       (table (db e))) + BATCH_SIZE e)%nat.
Proof.
  split; [reflexivity|]. split; [reflexivity|]. split; [reflexivity|].
  split; [simpl; lia|]. split; [reflexivity|].
  apply (query_count (healthy (rows_upto 10) 5) fresh);
    [reflexivity | reflexivity | reflexivity | simpl; lia].
Defined.

(** X5.  [BATCH_SIZE] is not checked: with a page size of 0 the first query
    asks for no rows, so the run ends as if nothing were new, whatever the
    table holds.  No row is exported, nothing is transferred, the
    checkpoint stays, an empty CSV file is left and the exit status is 0. *)
Theorem zero_batch_exports_nothing (e : Env) (fs : Files) :
  BATCH_SIZE e = 0%nat ->
  connect_ok (db e) = true ->
  query_fails_at (db e) <> Some 0%nat ->
  export e fs =
  {| status := Returned;
     files := {| last_id_txt := last_id_txt fs; csv := Some [] |};
     pages := [(read_last_id (last_id_txt fs), [])];
     rows_exported := 0; uploads := []; saved := [] |}
  /\ main e fs = ({| last_id_txt := last_id_txt fs; csv := Some [] |}, Some 0).
Proof.
  intros Hb Hc Hq.
  assert (E : export e fs =
    {| status := Returned;
       files := {| last_id_txt := last_id_txt fs; csv := Some [] |};
       pages := [(read_last_id (last_id_txt fs), [])];
       rows_exported := 0; uploads := []; saved := [] |}).
  { unfold export, export_with. rewrite Hc, Hb.
    cbn [negb loop loop_init fetched length last_id].
    assert (Eq : execute_fetchall (db e) 0 (read_last_id (last_id_txt fs)) 0
                 = Ok []).
    { unfold execute_fetchall, select. cbn [firstn].
      destruct (query_fails_at (db e)) as [[|j]|]; try reflexivity.
      congruence. }
    rewrite Eq. reflexivity. }
  split; [exact E|]. unfold main. now rewrite E.
Qed.

Lemma zero_batch_exports_nothing_witness :
  let e := healthy (rows_upto 5) 0 in
  BATCH_SIZE e = 0%nat
  /\ connect_ok (db e) = true
  /\ query_fails_at (db e) <> Some 0%nat
  /\ filter (id_gt (read_last_id (last_id_txt fresh))) (table (db e))
     = rows_upto 5
  /\ export e fresh =
     {| status := Returned;
        files := {| last_id_txt := last_id_txt fresh; csv := Some [] |};
        pages := [(read_last_id (last_id_txt fresh), [])];
        rows_exported := 0; uploads := []; saved := [] |}
  /\ main e fresh
     = ({| last_id_txt := last_id_txt fresh; csv := Some [] |}, Some 0).
Proof.
  split; [reflexivity|]. split; [reflexivity|].
  split; [discriminate|]. split; [reflexivity|].
  apply (zero_batch_exports_nothing (healthy (rows_upto 5) 0) fresh);
    [reflexivity | reflexivity | discriminate].
Defined.

(** Once a run has succeeded over a sorted table, no row of the table lies
    above the checkpoint it leaves. *)
Lemma nothing_pending_after (t : list Row) (c : Z) :
  StronglySorted lt_ID t ->
  filter (id_gt (page_end c (filter (id_gt c) t))) t = [].
Proof.
  intros Hs.
  assert (Hs' : StronglySorted lt_ID (t ++ [])) by now rewrite List.app_nil_r.
  pose proof (pending_after t [] c Hs') as E. cbv zeta in E.
  rewrite List.app_nil_r in E.
  rewrite <- (List.app_nil_r (filter (id_gt c) t)) in E at 3.
  now apply app_inv_head in E.
Qed.

(** X6.  A run that follows a successful run over the same table finds
    nothing new: whatever its page size, it sends one query, exports no
    row, transfers nothing and leaves the checkpoint as the first run
    saved it. *)
Theorem rerun_finds_nothing (e e' : Env) (fs fs' : Files) :
  strictly_increasing (table (db e)) = true ->
  connect_ok (db e) = true ->
  query_fails_at (db e) = None ->
  (0 < BATCH_SIZE e)%nat ->
  scp_ok e = true ->
  db e' = db e ->
  last_id_txt fs' = last_id_txt (files (export e fs)) ->
  export e' fs' =
  {| status := Returned;
     files := {| last_id_txt := last_id_txt fs'; csv := Some [] |};
     pages := [(read_last_id (last_id_txt fs'), [])];
     rows_exported := 0; uploads := []; saved := [] |}.
Proof.
  intros Hinc Hc Hq Hb Hscp Hdb Hfs.
  apply strictly_increasing_sorted in Hinc.
  destruct (export_success e fs Hc Hq Hb Hscp Hinc) as (_ & _ & Hread & _).
  apply empty_run.
  - now rewrite Hdb.
  - rewrite Hdb, Hq. discriminate.
  - rewrite Hdb, Hfs, Hread. now apply nothing_pending_after.
Qed.

Lemma rerun_finds_nothing_witness :
  let e := healthy (rows_upto 7) 3 in
  let e' := healthy (rows_upto 7) 2 in
  let fs' := resumed "7" in
  strictly_increasing (table (db e)) = true
  /\ connect_ok (db e) = true
  /\ query_fails_at (db e) = None
  /\ (0 < BATCH_SIZE e)%nat
  /\ scp_ok e = true
  /\ db e' = db e
  /\ last_id_txt fs' = last_id_txt (files (export e fresh))
  /\ export e' fs' =
     {| status := Returned;
        files := {| last_id_txt := last_id_txt fs'; csv := Some [] |};
        pages := [(read_last_id (last_id_txt fs'), [])];
        rows_exported := 0; uploads := []; saved := [] |}.
Proof.
  split; [reflexivity|]. split; [reflexivity|]. split; [reflexivity|].
  split; [simpl; lia|]. split; [reflexivity|]. split; [reflexivity|].
  split; [reflexivity|].
  apply (rerun_finds_nothing (healthy (rows_upto 7) 3)
           (healthy (rows_upto 7) 2) fresh (resumed "7"));
    [reflexivity | reflexivity | reflexivity | simpl; lia
     | reflexivity | reflexivity | reflexivity].
Defined.

(** X7.  Two successful runs, with rows appended to the table between
    them, export every row above the first checkpoint exactly once and in
    order: the rows of the first run followed by the rows of the second are
    the rows of the final table above the checkpoint the first run started
    from.  After the second run no row lies above the saved checkpoint. *)
Theorem appended_rows_exported_once (e1 e2 : Env) (fs fs2 : Files)
    (t2 : list Row) :
  table (db e2) = table (db e1) ++ t2 ->
  strictly_increasing (table (db e2)) = true ->
  connect_ok (db e1) = true -> query_fails_at (db e1) = None ->
  (0 < BATCH_SIZE e1)%nat -> scp_ok e1 = true ->
  connect_ok (db e2) = true -> query_fails_at (db e2) = None ->
  (0 < BATCH_SIZE e2)%nat -> scp_ok e2 = true ->
  last_id_txt fs2 = last_id_txt (files (export e1 fs)) ->
  let r1 := export e1 fs in
  let r2 := export e2 fs2 in
  all_rows (pages r1) ++ all_rows (pages r2)
  = filter (id_gt (read_last_id (last_id_txt fs))) (table (db e2))
  /\ status r2 = Returned
  /\ filter (id_gt (read_last_id (last_id_txt (files r2)))) (table (db e2))
     = [].
Proof.
  intros Ht Hinc Hc1 Hq1 Hb1 Hs1 Hc2 Hq2 Hb2 Hs2 Hfs r1 r2. subst r1 r2.
  apply strictly_increasing_sorted in Hinc.
  assert (Hinc1 : StronglySorted lt_ID (table (db e1))).
  { rewrite Ht in Hinc. now apply sorted_app_inv in Hinc. }
  destruct (export_success e1 fs Hc1 Hq1 Hb1 Hs1 Hinc1)
    as (Ea1 & _ & Hread1 & _).
  destruct (export_success e2 fs2 Hc2 Hq2 Hb2 Hs2 Hinc)
    as (Ea2 & Hst2 & Hread2 & _).
  rewrite Ea1, Ea2, Hread2, Hfs, Hread1.
  split; [|split; [exact Hst2 | now apply nothing_pending_after]].
  rewrite Ht in Hinc |- *. now apply pending_after.
Qed.

Lemma appended_rows_exported_once_witness :
  let e1 := healthy (rows_upto 5) 2 in
  let e2 := healthy (rows_upto 8) 3 in
  let t2 := [simple_row 6; simple_row 7; simple_row 8] in
  let fs2 := resumed "5" in
  let r1 := export e1 (resumed "1") in
  let r2 := export e2 fs2 in
  table (db e2) = table (db e1) ++ t2
  /\ strictly_increasing (table (db e2)) = true
  /\ last_id_txt fs2 = last_id_txt (files r1)
  /\ map ID (all_rows (pages r1)) = [2; 3; 4; 5]
  /\ map ID (all_rows (pages r2)) = [6; 7; 8]
  /\ all_rows (pages r1) ++ all_rows (pages r2)
     = filter (id_gt (read_last_id (last_id_txt (resumed "1"))))
         (table (db e2))
  /\ status r2 = Returned
  /\ filter (id_gt (read_last_id (last_id_txt (files r2)))) (table (db e2))
     = [].
Proof.
  split; [reflexivity|]. split; [reflexivity|]. split; [reflexivity|].
  split; [reflexivity|]. split; [reflexivity|].
  apply (appended_rows_exported_once (healthy (rows_upto 5) 2)
           (healthy (rows_upto 8) 3) (resumed "1") (resumed "5")
           [simple_row 6; simple_row 7; simple_row 8]);
    try reflexivity; simpl; lia.
Defined.

(** X8.  The exit status tells where the checkpoint stands.  The process
    exits with 0 or with 1.  After exit 0 the loop had seen its empty page
    and every row fetched is at or below the checkpoint now stored; after
    exit 1 [last_id.txt] is as it was before the run. *)
Theorem exit_status_contract (e : Env) (fs : Files) :
  let r := export e fs in
  (snd (main e fs) = Some 0 \/ snd (main e fs) = Some 1)
  /\ (snd (main e fs) = Some 0 ->
      Forall (fun row => ID row <= read_last_id (last_id_txt (files r)))
        (all_rows (pages r))
      /\ exists ps lo, pages r = ps ++ [(lo, [])])
  /\ (snd (main e fs) = Some 1 ->
      last_id_txt (files r) = last_id_txt fs /\ saved r = []).
Proof.
  intros r. subst r. unfold main, exit_code. cbn [snd].
  destruct (connect_ok (db e)) eqn:Hc.
  2:{ rewrite (export_not_connected e fs Hc). simpl.
      split; [now right | split; [discriminate | auto]]. }
  destruct (export_connected e fs Hc) as (st & res & _ & Hs & Ht & ->).
  destruct Hs as [Hp Hl Hn Htot Hw Hcsv].
  unfold after_loop.
  destruct res as [[]|x].
  2:{ simpl. split; [now right | split; [discriminate | auto]]. }
  destruct Ht as (ps & Ef & _).
  destruct (total_exported st =? 0)%nat eqn:E0.
  { apply Nat.eqb_eq in E0. simpl.
    split; [now left | split; [intros _ | discriminate]].
    split; [|now exists ps, (last_id st)].
    rewrite E0 in Htot. symmetry in Htot.
    apply length_zero_iff_nil in Htot. rewrite Htot. constructor. }
  destruct (scp_ok e); simpl.
  - split; [now left | split; [intros _ | discriminate]].
    split; [|now exists ps, (last_id st)].
    rewrite read_write_last_id, Hn, Hl.
    destruct (pages_bounds _ _ _ _ Hp) as [_ Hall].
    eapply Forall_impl; [|exact Hall]. simpl. tauto.
  - split; [now right | split; [discriminate | auto]].
Qed.

(** X13.  Over a table listed by strictly increasing identifier no row is
    skipped: at every point, and so also when the data source raises, the
    rows fetched so far are an initial segment of the rows above the
    starting checkpoint, and what is missing are the rows above the last
    one fetched.  With a positive page size nothing is missing unless the
    data source raised. *)
Theorem fetched_rows_are_prefix (e : Env) (fs : Files) :
  strictly_increasing (table (db e)) = true ->
  let c := read_last_id (last_id_txt fs) in
  let r := export e fs in
  all_rows (pages r)
  ++ filter (id_gt (page_end c (all_rows (pages r)))) (table (db e))
  = filter (id_gt c) (table (db e))
  /\ ((0 < BATCH_SIZE e)%nat -> status r <> Raised DataSourceError ->
      all_rows (pages r) = filter (id_gt c) (table (db e))).
Proof.
  intros Hinc c r. subst r. apply strictly_increasing_sorted in Hinc.
  destruct (connect_ok (db e)) eqn:Hc.
  2:{ rewrite (export_not_connected e fs Hc). simpl.
      split; [reflexivity | congruence]. }
  destruct (export_connected e fs Hc) as (st & res & _ & Hs & Ht & ->).
  destruct (after_loop_pages e fs st res) as (-> & _ & _).
  pose proof (pages_cover _ _ Hinc _ _ (shape_pages _ _ _ _ Hs)) as Hcov.
  rewrite end_of_all_rows in Hcov. split; [exact Hcov|].
  intros Hb Hst. destruct res as [[]|x].
  - now apply (loop_complete _ _ _ _ Hinc Hb Hs Ht).
  - destruct Ht as (-> & _). now contradiction Hst.
Qed.

Lemma fetched_rows_are_prefix_witness :
  let e := failing_at 2 (rows_upto 7) 2 in
  let fs := resumed "1" in
  let c := read_last_id (last_id_txt fs) in
  let r := export e fs in
  strictly_increasing (table (db e)) = true
  /\ map ID (all_rows (pages r)) = [2; 3; 4; 5]
  /\ all_rows (pages r)
     ++ filter (id_gt (page_end c (all_rows (pages r)))) (table (db e))
     = filter (id_gt c) (table (db e))
  /\ ((0 < BATCH_SIZE e)%nat -> status r <> Raised DataSourceError ->
      all_rows (pages r) = filter (id_gt c) (table (db e))).
Proof.
  split; [reflexivity|]. split; [reflexivity|].
  apply (fetched_rows_are_prefix (failing_at 2 (rows_upto 7) 2) (resumed "1")).
  reflexivity.
Defined.

(* ================================================================== *)
(** * Further properties of the checkpoint store and the settings *)

Lemma read_last_id_padded_witness :
  all_space " "
  /\ all_space "
"
  /\ read_last_id (Some (" " ++ py_str 12500 ++ "
")%string) = 12500.
Proof.
  assert (H1 : all_space " ") by (simpl; auto).
  assert (H2 : all_space "
") by (simpl; auto).
  split; [exact H1|]. split; [exact H2|].
  exact (read_last_id_padded 12500 _ _ H1 H2).
Defined.

Section SettingsFacts.

Variable expanduser : string -> string.

(** X10.  [scp_client] connects with the key file exactly when [SCP_KEY] is
    set to a text that is not empty, and then [SCP_PASS] plays no part;
    otherwise it connects with the password, which is [None] when
    [SCP_PASS] is unset or empty. *)
Theorem scp_key_takes_precedence (env : Environ) (cfg : Settings.t) :
  load_settings expanduser env = Ok cfg ->
  scp_client expanduser (Settings.SCP_CFG cfg) =
  match getenv env "SCP_KEY" with
  | Some (String a k) =>
      WithKey (getenv env "SCP_HOST")
              (Settings.port (Settings.SCP_CFG cfg))
              (getenv env "SCP_USER")
              (expanduser (String a k))
  | _ =>
      WithPassword (getenv env "SCP_HOST")
                   (Settings.port (Settings.SCP_CFG cfg))
                   (getenv env "SCP_USER")
                   (match getenv env "SCP_PASS" with
                    | Some (String a p) => Some (String a p)
                    | _ => None
                    end)
  end.
Proof.
  unfold load_settings, bind.
  destruct (getenv_int env "BATCH_SIZE" 5000) as [batch|]; [|discriminate].
  destruct (getenv_int env "SCP_PORT" 22) as [p|]; [|discriminate].
  intros H. injection H as <-. unfold scp_client. cbn.
  destruct (getenv env "SCP_KEY") as [[|a k]|];
    destruct (getenv env "SCP_PASS") as [[|a' p']|]; reflexivity.
Qed.

(** X11.  The settings do not depend on [MYSQL_HOST] and [MYSQL_PORT]: two
    environments that differ in these variables only give the same
    settings, and the database is always reached through the socket
    [/var/lib/mysql/mysql.sock]. *)
Theorem mysql_host_and_port_ignored (env env' : Environ) :
  agree_except ["MYSQL_HOST"%string; "MYSQL_PORT"%string] env env' ->
  load_settings expanduser env = load_settings expanduser env'
  /\ forall cfg, load_settings expanduser env = Ok cfg ->
       Settings.unix_socket (Settings.MYSQL_CFG cfg)
       = "/var/lib/mysql/mysql.sock"%string.
Proof.
  intros H.
  assert (Hk : forall k, k <> "MYSQL_HOST"%string ->
                         k <> "MYSQL_PORT"%string -> env k = env' k).
  { intros k H1 H2. apply H. intros [E | [E | []]]; congruence. }
  split.
  - unfold load_settings, getenv_int, getenv_or, getenv.
    rewrite !Hk by discriminate. reflexivity.
  - unfold load_settings, bind.
    destruct (getenv_int env "BATCH_SIZE" 5000); [|discriminate].
    destruct (getenv_int env "SCP_PORT" 22); [|discriminate].
    intros cfg E. injection E as <-. reflexivity.
Qed.

(** X12.  [BATCH_SIZE] is read as an integer and taken as it is: set to the
    decimal text of any integer, zero and negative ones included, with or
    without whitespace around it, it gives that integer. *)
Theorem batch_size_setting (env : Environ) (n p : Z) (w1 w2 : string) :
  all_space w1 -> all_space w2 ->
  getenv env "BATCH_SIZE" = Some (w1 ++ py_str n ++ w2)%string ->
  getenv_int env "SCP_PORT" 22 = Ok p ->
  exists cfg,
    load_settings expanduser env = Ok cfg
    /\ Settings.BATCH_SIZE cfg = n
    /\ Settings.port (Settings.SCP_CFG cfg) = p.
Proof.
  intros H1 H2 Hb Hp. unfold load_settings.
  unfold getenv_int at 1. rewrite Hb. unfold py_int.
  rewrite strip_padding by (auto using no_space_py_str).
  rewrite parse_signed_py_str. cbn [bind]. rewrite Hp. cbn [bind].
  eexists. split; [reflexivity|]. split; reflexivity.
Qed.

End SettingsFacts.

Lemma scp_key_takes_precedence_witness :
  let env := environ_of [("SCP_HOST", "remote.example.com");
                         ("SCP_PASS", "secret");
                         ("SCP_KEY", "/root/.ssh/id_rsa")]%string in
  let cfg := {| Settings.WORKDIR := ".";
                Settings.BATCH_SIZE := 5000;
                Settings.MYSQL_CFG :=
                  {| Settings.unix_socket := "/var/lib/mysql/mysql.sock";
                     Settings.user := None; Settings.password := None;
                     Settings.database := None;
                     Settings.charset := "utf8mb4" |};
                Settings.SCP_CFG :=
                  {| Settings.hostname := Some "remote.example.com"%string;
                     Settings.port := 22;
                     Settings.username := None;
                     Settings.scp_password := Some "secret"%string;
                     Settings.key_path := Some "/root/.ssh/id_rsa"%string;
                     Settings.remote_dir := "/tmp" |} |} in
  load_settings (fun s => s) env = Ok cfg
  /\ scp_client (fun s => s) (Settings.SCP_CFG cfg)
     = WithKey (Some "remote.example.com"%string) 22 None
         "/root/.ssh/id_rsa".
Proof.
  intros env cfg. split; [reflexivity|].
  exact (scp_key_takes_precedence (fun s => s) env cfg eq_refl).
Defined.

Lemma mysql_host_and_port_ignored_witness :
  let env := environ_of [("MYSQL_HOST", "db1"); ("MYSQL_USER", "bot")]%string in
  let env' := environ_of [("MYSQL_HOST", "db2"); ("MYSQL_PORT", "3307");
                          ("MYSQL_USER", "bot")]%string in
  agree_except ["MYSQL_HOST"%string; "MYSQL_PORT"%string] env env'
  /\ load_settings (fun s => s) env = load_settings (fun s => s) env'
  /\ forall cfg, load_settings (fun s => s) env = Ok cfg ->
       Settings.unix_socket (Settings.MYSQL_CFG cfg)
       = "/var/lib/mysql/mysql.sock"%string.
Proof.
  assert (H : agree_except ["MYSQL_HOST"%string; "MYSQL_PORT"%string]
                (environ_of [("MYSQL_HOST", "db1"); ("MYSQL_USER", "bot")]%string)
                (environ_of [("MYSQL_HOST", "db2"); ("MYSQL_PORT", "3307");
                             ("MYSQL_USER", "bot")]%string)).
  { intros k Hk. unfold environ_of. cbn [find fst snd].
    destruct (String.eqb_spec "MYSQL_HOST" k) as [<-|_].
    { exfalso. apply Hk. now left. }
    destruct (String.eqb_spec "MYSQL_PORT" k) as [<-|_].
    { exfalso. apply Hk. right. now left. }
    reflexivity. }
  split; [exact H|].
  exact (mysql_host_and_port_ignored (fun s => s) _ _ H).
Defined.

Lemma batch_size_setting_witness :
  let env := environ_of [("BATCH_SIZE", "0
")]%string in
  all_space EmptyString
  /\ all_space "
"
  /\ getenv env "BATCH_SIZE" = Some ("" ++ py_str 0 ++ "
")%string
  /\ getenv_int env "SCP_PORT" 22 = Ok 22
  /\ exists cfg,
       load_settings (fun s => s) env = Ok cfg
       /\ Settings.BATCH_SIZE cfg = 0
       /\ Settings.port (Settings.SCP_CFG cfg) = 22.
Proof.
  assert (H1 : all_space EmptyString) by exact I.
  assert (H2 : all_space "
") by (simpl; auto).
  split; [exact H1|]. split; [exact H2|].
  split; [reflexivity|]. split; [reflexivity|].
  exact (batch_size_setting (fun s => s)
           (environ_of [("BATCH_SIZE", "0
")]%string) 0 22 _ _ H1 H2 eq_refl eq_refl).
Defined.
